(** * csv-helper: a shallow embedding of [csv.go] and its specification

    The Go package binds rows of string cells (the first row being a header)
    to values of a caller-declared struct type [T], using the struct tag
    [csv_column_name] of every field.  The embedding follows [csv.go]
    function by function:

    - the type parameter [T] is a struct type without embedded fields, given
      as the list of its [StructField] descriptors, which is what the calls
      into package [reflect] observe of it;
    - Go maps are [gmap]s, slices are lists, strings are byte strings;
    - a Go function that may panic returns in the [exec] monad;
    - the two collaborators that are not part of the package (the Unicode
      tail of [strings.EqualFold] and [encoding/csv]'s reader) are the
      classes [UnicodeFold] and [CsvReader]. *)

From Stdlib Require Import Ascii String NArith.
From stdpp Require Import gmap strings list fin_maps.

Set Warnings "-clear-no-such-hyp".

Local Open Scope string_scope.
Local Open Scope list_scope.
Local Open Scope nat_scope.

(** ** Errors and panics *)

(** Sentinel errors of [encoding/csv], wrapped by the reader in a
    [*csv.ParseError]. *)
Inductive csvSentinel := ErrBareQuote | ErrQuote | ErrFieldCount.

Record ParseError := {
  StartLine : nat;
  Line      : nat;
  Column    : nat;
  Err       : csvSentinel
}.

(** The package's own error values, plus whatever the reader stored. *)
Inductive error :=
  | ErrInvalidHeaderSize
  | ErrInvalidHeaderValues
  | ErrMissingRequiredTag
  | ErrDuplicatedTag
  | ErrUninitializedRecords
  | ReaderError (e : ParseError).

Global Instance csvSentinel_eq_dec : EqDecision csvSentinel.
Proof. solve_decision. Defined.
Global Instance ParseError_eq_dec : EqDecision ParseError.
Proof. solve_decision. Defined.
Global Instance error_eq_dec : EqDecision error.
Proof. solve_decision. Defined.

(** [reflect.Kind]. *)
Inductive Kind :=
  | KInvalid | KBool | KInt | KInt8 | KInt16 | KInt32 | KInt64
  | KUint | KUint8 | KUint16 | KUint32 | KUint64 | KUintptr
  | KFloat32 | KFloat64 | KComplex64 | KComplex128
  | KArray | KChan | KFunc | KInterface | KMap | KPointer | KSlice
  | KString | KStruct | KUnsafePointer.

Global Instance Kind_eq_dec : EqDecision Kind.
Proof. solve_decision. Defined.

(** Run-time panics the package can raise: an index out of range, a method
    with a value receiver called through a nil pointer, and the two ways
    [reflect.Value.SetString] refuses a value. *)
Inductive panic :=
  | IndexOutOfRange (index len : nat)
  | NilDereference
  | ValueError (Method : string) (K : Kind)
  | UnexportedField (Method : string).

(** A Go call either returns its results or panics. *)
Inductive exec (A : Type) :=
  | Done (a : A)
  | Panicked (p : panic).
Arguments Done {A} a.
Arguments Panicked {A} p.

Global Instance exec_ret : MRet exec := fun A a => Done a.
Global Instance exec_bind : MBind exec := fun A B k m =>
  match m with
  | Done a => k a
  | Panicked p => Panicked p
  end.

(** ** The struct type [T] as package [reflect] shows it *)

(** A struct tag is a small dictionary from keys to values; [Get] answers
    the empty string for a key that is absent. *)
Definition Get (tag : gmap string string) (key : string) : string :=
  default "" (tag !! key).

Record StructField := {
  Name     : string;
  Tag      : gmap string string;
  Type_    : Kind;
  Exported : bool
}.

Definition csvColumnNameTag : string := "csv_column_name".

(** The column tag of a field, [rt.Field(i).Tag.Get(csvColumnNameTag)]. *)
Definition columnTag (f : StructField) : string := Get (Tag f) csvColumnNameTag.

(** Values of [T]: one slot per declared field, in declaration order.  Only
    string fields are ever written; a field of another kind stays at the
    zero value of its kind. *)
Inductive Value :=
  | VString (s : string)
  | VZero (k : Kind).

Global Instance Value_eq_dec : EqDecision Value.
Proof. solve_decision. Defined.

Definition zeroValue (k : Kind) : Value :=
  match k with
  | KString => VString ""
  | _ => VZero k
  end.

(** [var model T]. *)
Definition zero (T : list StructField) : list Value :=
  (λ f, zeroValue (Type_ f)) <$> T.

(** [reflect.Value.FieldByName] on a struct without embedded fields: the
    empty name is never found, otherwise the first field of that name. *)
Definition FieldByName (T : list StructField) (name : string)
  : option (nat * StructField) :=
  if decide (name = "") then None
  else list_find (λ f, Name f = name) T.

Definition SetString_name : string := "reflect.Value.SetString".

(** [v.SetString(x)] where [v] is the result of [FieldByName] on the
    addressable value [model]: [mustBeAssignable], then [mustBe(String)],
    then the store. *)
Definition SetString (v : option (nat * StructField)) (x : string)
    (model : list Value) : exec (list Value) :=
  match v with
  | None => Panicked (ValueError SetString_name KInvalid)
  | Some (k, f) =>
      if negb (Exported f) then Panicked (UnexportedField SetString_name)
      else if decide (Type_ f = KString) then Done (<[k := VString x]> model)
      else Panicked (ValueError SetString_name (Type_ f))
  end.

(** ** Configuration and helper state *)

Record MarshalConfig := { MarshalConfig_SkipValidation : bool }.
Record ValidationConfig := { SkipValidation : bool }.

Record csvHelperImpl := {
  records : list (list string);
  err     : option error
}.

(** [&csvHelperImpl[T]{}]: the zero value. *)
Definition csvHelperImpl_zero : csvHelperImpl :=
  {| records := []; err := None |}.

(** ** Collaborators outside the package *)

(** The slow path of [strings.EqualFold], entered at the first position
    where either string has a byte outside ASCII; it receives the two
    remaining suffixes.  Its rune decoding and [unicode.SimpleFold] tables
    belong to the Go library. *)
Class UnicodeFold := hasUnicode : string → string → bool.

(** [csv.NewReader(buffer).ReadAll()] as a function of the bytes held by the
    buffer.  The error it returns is the reader's own, a [*csv.ParseError],
    never one of this package's error values. *)
Class CsvReader := csvReadAll : string → list (list string) * option ParseError.

(** ** [strings.EqualFold] *)

Definition RuneSelf : N := 128.

(** The ASCII fast path, byte by byte: equal bytes, or an upper-case letter
    and its lower-case form, match; the loop hands over to the slow path at
    the first byte outside ASCII and otherwise ends by comparing the
    lengths. *)
Fixpoint EqualFold `{UnicodeFold} (s t : string) : bool :=
  match s, t with
  | String sr s', String tr t' =>
      let a := N_of_ascii sr in
      let b := N_of_ascii tr in
      if (RuneSelf <=? N.lor a b)%N then hasUnicode s t
      else if (b =? a)%N then EqualFold s' t'
      else
        let lo := if (b <? a)%N then b else a in
        let hi := if (b <? a)%N then a else b in
        if (65 <=? lo)%N && (lo <=? 90)%N && (hi =? (lo + 97 - 65) mod 256)%N
        then EqualFold s' t'
        else false
  | EmptyString, EmptyString => true
  | _, _ => false
  end.

(** ** Slice indexing *)

(** [l[i]], which panics out of range. *)
Definition index {A} (l : list A) (i : nat) : exec A :=
  match l !! i with
  | Some x => Done x
  | None => Panicked (IndexOutOfRange i (length l))
  end.

(** ** The package's functions, in the order of [csv.go] *)

(** [ReadAll] has a value receiver: it assigns to its own copy [c] and
    returns that copy. *)
Definition ReadAll `{CsvReader} (c : csvHelperImpl) (buffer : string)
  : csvHelperImpl :=
  let '(rs, e) := csvReadAll buffer in
  let c := {| records := rs; err := ReaderError <$> e |} in
  c.

Definition validateIntegrity (c : csvHelperImpl) : option error :=
  match err c with
  | Some e => Some e
  | None =>
      if decide (length (records c) = 0) then Some ErrUninitializedRecords
      else None
  end.

(** The loop of [validateModelTags]: it stops at the first empty tag and
    otherwise records [tags[tag] = i]. *)
Fixpoint collectTags (fields : list StructField) (i : nat)
    (tags : gmap string nat) : error + gmap string nat :=
  match fields with
  | [] => inr tags
  | f :: rest =>
      let tag := columnTag f in
      if decide (tag = "") then inl ErrMissingRequiredTag
      else collectTags rest (S i) (<[tag := i]> tags)
  end.

Definition validateModelTags (T : list StructField) : option error :=
  let modelSize := length T in
  match collectTags T 0 ∅ with
  | inl e => Some e
  | inr tags =>
      if decide (size tags ≠ modelSize) then Some ErrDuplicatedTag else None
  end.

Definition validate (T : list StructField) (c : csvHelperImpl)
    (cfg : ValidationConfig) : exec (option error) :=
  match validateIntegrity c with
  | Some e => Done (Some e)
  | None =>
      if negb (SkipValidation cfg) then
        match validateModelTags T with
        | Some e => Done (Some e)
        | None =>
            csvHeaders ← index (records c) 0;
            let modelSize := length T in
            if decide (length csvHeaders ≠ modelSize)
            then Done (Some ErrInvalidHeaderSize)
            else Done None
        end
      else Done None
  end.

Definition Validate (T : list StructField) (c : csvHelperImpl)
  : exec (bool * option error) :=
  e ← validate T c {| SkipValidation := false |};
  match e with
  | Some e => Done (false, Some e)
  | None => Done (true, None)
  end.

Definition Records (T : list StructField) (c : csvHelperImpl)
  : exec (list (list string) * option error) :=
  e ← validate T c {| SkipValidation := false |};
  match e with
  | Some e => Done ([], Some e)
  | None => Done (records c, err c)
  end.

Definition Error (T : list StructField) (c : csvHelperImpl)
  : exec (option error) :=
  e ← validate T c {| SkipValidation := false |};
  match e with
  | Some e => Done (Some e)
  | None => Done (err c)
  end.

(** First loop of [mapIndexToField]: the field names in declaration order
    and the map from field name to column tag. *)
Definition collectFields (T : list StructField)
  : list string * gmap string string :=
  foldl (λ acc f, ((acc.1 ++ [Name f])%list, <[Name f := columnTag f]> (acc.2)))
        ([], ∅) T.

(** Inner loop: [for j, header := range csvHeaders]; the field name
    [modelFieldNames[i]] is read at each of its two uses. *)
Fixpoint scanHeaders `{UnicodeFold} (modelFieldNames : list string)
    (modelFieldsToColumns : gmap string string) (i j : nat)
    (csvHeaders : list string) (indexToFieldName : gmap nat string)
  : exec (gmap nat string) :=
  match csvHeaders with
  | [] => Done indexToFieldName
  | header :: rest =>
      fieldName ← index modelFieldNames i;
      if EqualFold (default "" (modelFieldsToColumns !! fieldName)) header
      then
        fieldName ← index modelFieldNames i;
        scanHeaders modelFieldNames modelFieldsToColumns i (S j) rest
                    (<[j := fieldName]> indexToFieldName)
      else
        scanHeaders modelFieldNames modelFieldsToColumns i (S j) rest
                    indexToFieldName
  end.

(** Outer loop: [for i := 0; i < len(modelFieldsToColumns); i++]. *)
Definition resolveHeaders `{UnicodeFold} (modelFieldNames : list string)
    (modelFieldsToColumns : gmap string string) (csvHeaders : list string)
  : exec (gmap nat string) :=
  foldl (λ acc i,
           indexToFieldName ← acc;
           scanHeaders modelFieldNames modelFieldsToColumns i 0 csvHeaders
                       indexToFieldName)
        (Done ∅) (seq 0 (size modelFieldsToColumns)).

Definition mapIndexToField `{UnicodeFold} (T : list StructField)
    (csv : list (list string)) : exec (gmap nat string * option error) :=
  csvHeaders ← index csv 0;
  let fields := collectFields T in
  indexToFieldName ← resolveHeaders (fields.1) (fields.2) csvHeaders;
  Done (indexToFieldName, None).

(** Inner loop of [assign]: [for index, data := range record]. *)
Fixpoint assignCells (T : list StructField) (indexToFieldName : gmap nat string)
    (index : nat) (record : list string) (model : list Value)
  : exec (list Value) :=
  match record with
  | [] => Done model
  | data :: rest =>
      let modelField := default "" (indexToFieldName !! index) in
      model ← SetString (FieldByName T modelField) data model;
      assignCells T indexToFieldName (S index) rest model
  end.

(** Outer loop of [assign]: [for index, record := range records], the
    header line being skipped. *)
Fixpoint assignRecords (T : list StructField)
    (indexToFieldName : gmap nat string) (index : nat)
    (records : list (list string)) (output : list (list Value))
  : exec (list (list Value)) :=
  match records with
  | [] => Done output
  | record :: rest =>
      let headerLine := 0 in
      if decide (index = headerLine)
      then assignRecords T indexToFieldName (S index) rest output
      else
        model ← assignCells T indexToFieldName 0 record (zero T);
        assignRecords T indexToFieldName (S index) rest (output ++ [model])%list
  end.

Definition assign (T : list StructField) (records : list (list string))
    (indexToFieldName : gmap nat string)
  : exec (list (list Value) * option error) :=
  output ← assignRecords T indexToFieldName 0 records [];
  Done (output, None).

Definition Marshal `{UnicodeFold} (T : list StructField) (c : csvHelperImpl)
    (cfg : MarshalConfig) : exec (list (list Value) * option error) :=
  e ← validate T c {| SkipValidation := MarshalConfig_SkipValidation cfg |};
  match e with
  | Some e => Done ([], Some e)
  | None =>
      r ← mapIndexToField T (records c);
      match r.2 with
      | Some e => Done ([], Some e)
      | None => assign T (records c) (r.1)
      end
  end.

(** ** Handles

    A value of the interface type [CsvHelper[T]] holds either the pointer
    made by [New] or the struct copied into it by [ReadAll].  All exported
    methods have value receivers, so a call through a pointer first copies
    the pointee. *)
Inductive CsvHelper :=
  | Pointer (l : nat)
  | Boxed (c : csvHelperImpl).

Definition receiver (σ : gmap nat csvHelperImpl) (h : CsvHelper)
  : exec csvHelperImpl :=
  match h with
  | Pointer l =>
      match σ !! l with
      | Some c => Done c
      | None => Panicked NilDereference
      end
  | Boxed c => Done c
  end.

(** [New[T]()]: allocate a zero helper and return the pointer to it. *)
Definition New (σ : gmap nat csvHelperImpl) : gmap nat csvHelperImpl * CsvHelper :=
  let l := fresh (dom σ) in
  (<[l := csvHelperImpl_zero]> σ, Pointer l).

Inductive call :=
  | CallReadAll (buffer : string)
  | CallValidate
  | CallRecords
  | CallError
  | CallMarshal (cfg : MarshalConfig).

Inductive result :=
  | RetReadAll (h : CsvHelper)
  | RetValidate (r : bool * option error)
  | RetRecords (r : list (list string) * option error)
  | RetError (r : option error)
  | RetMarshal (r : list (list Value) * option error).

(** A method call through a handle, threading the store of allocated
    helpers. *)
Definition invoke `{UnicodeFold} `{CsvReader} (T : list StructField)
    (σ : gmap nat csvHelperImpl) (h : CsvHelper) (m : call)
  : exec (gmap nat csvHelperImpl * result) :=
  c ← receiver σ h;
  match m with
  | CallReadAll buffer => Done (σ, RetReadAll (Boxed (ReadAll c buffer)))
  | CallValidate => r ← Validate T c; Done (σ, RetValidate r)
  | CallRecords => r ← Records T c; Done (σ, RetRecords r)
  | CallError => r ← Error T c; Done (σ, RetError r)
  | CallMarshal cfg => r ← Marshal T c cfg; Done (σ, RetMarshal r)
  end.

(** The error a method call reports; [ReadAll] reports none. *)
Definition errorOf (r : result) : option error :=
  match r with
  | RetReadAll _ => None
  | RetValidate r => r.2
  | RetRecords r => r.2
  | RetError r => r
  | RetMarshal r => r.2
  end.

Definition isAccessor (m : call) : bool :=
  match m with
  | CallReadAll _ => false
  | _ => true
  end.

(** A sequence of calls on one handle. *)
Fixpoint invokeAll `{UnicodeFold} `{CsvReader} (T : list StructField)
    (σ : gmap nat csvHelperImpl) (h : CsvHelper) (ms : list call)
  : exec (gmap nat csvHelperImpl * list result) :=
  match ms with
  | [] => Done (σ, [])
  | m :: rest =>
      r ← invoke T σ h m;
      rs ← invokeAll T (r.1) h rest;
      Done (rs.1, r.2 :: rs.2)
  end.

(** ** Struct types and tables used in examples *)

Definition stringField (name tag : string) : StructField :=
  {| Name := name; Tag := {[ csvColumnNameTag := tag ]};
     Type_ := KString; Exported := true |}.

(** [type person struct { Name string `csv_column_name:"name"`;
    LastName string `csv_column_name:"lastname"` }]. *)
Definition person : list StructField :=
  [stringField "Name" "name"; stringField "LastName" "lastname"].

Definition personTable : list (list string) :=
  [["name"; "lastname"]; ["Lucas"; "Montenegro"]; ["Vinicius"; "Vieira"]].

(** A table whose header has one column more than [person] has fields. *)
Definition widerTable : list (list string) :=
  [["name"; "lastname"; "age"]; ["Lucas"; "Montenegro"; "30"]].

(** A table of the right width none of whose header cells is a tag of
    [person]. *)
Definition foreignTable : list (list string) :=
  [["first"; "second"]; ["Lucas"; "Montenegro"]].

(** Two fields with distinct tags, and a table whose header repeats one of
    them. *)
Definition pair : list StructField :=
  [stringField "A" "a"; stringField "B" "b"].

Definition repeatedHeaderTable : list (list string) :=
  [["a"; "a"]; ["1"; "2"]].




(** The error the reader stores for a record of the wrong width. *)
Definition fieldCountError : error :=
  ReaderError {| StartLine := 2; Line := 2; Column := 1; Err := ErrFieldCount |}.

(** A slow path for evaluating [EqualFold] on ASCII strings, which never
    reach it. *)
Definition noUnicode : UnicodeFold := λ _ _, false.

(** A reader for examples: one record per line, cells separated by commas,
    no quoting. *)
Definition splitOn (sep : ascii) (s : string) : list string :=
  (fix go (s cur : string) : list string :=
     match s with
     | EmptyString => [cur]
     | String a s' =>
         if decide (a = sep) then cur :: go s' EmptyString
         else go s' (cur +:+ String a EmptyString)
     end) s EmptyString.

Definition plainReader : CsvReader := λ buffer,
  (splitOn "," <$> filter (λ l, l ≠ "") (splitOn "010" buffer), None).

(** ** The specification's words *)

(** A valid schema: every field has a non-empty column tag and the tags are
    pairwise distinct. *)
Definition validSchema (T : list StructField) : Prop :=
  Forall (λ f, columnTag f ≠ "") T ∧ NoDup (columnTag <$> T).

(** The schema checks in the order the specification gives them. *)
Definition schemaVerdict (T : list StructField) (csvHeaders : list string)
  : option error :=
  if decide (Exists (λ f, columnTag f = "") T) then Some ErrMissingRequiredTag
  else if decide (NoDup (columnTag <$> T)) then
    if decide (length csvHeaders = length T) then None
    else Some ErrInvalidHeaderSize
  else Some ErrDuplicatedTag.

(** A struct type every field of which [assign] can write: the field names
    are non-empty and pairwise distinct, and every field is an exported
    string. *)
Definition bindable (T : list StructField) : Prop :=
  NoDup (Name <$> T) ∧
  Forall (λ f, Name f ≠ "" ∧ Exported f = true ∧ Type_ f = KString) T.

(** The field a header cell resolves to: the last declared field whose
    column tag equals the cell under [EqualFold]. *)
Definition resolve `{UnicodeFold} (T : list StructField) (header : string)
  : option string :=
  Name <$> last (filter (λ f, Is_true (EqualFold (columnTag f) header)) T).

(** Reordering the cells of a row: cell [j] of the result is cell [p !! j]
    of the row. *)
Definition permute {A} (p : list nat) (l : list A) : list A :=
  omap (λ i, l !! i) p.

Definition permuteTable (p : list nat) (rs : list (list string))
  : list (list string) :=
  permute p <$> rs.

(** ASCII strings and their lower-case form. *)
Definition isASCIIByte (a : ascii) : bool := (N_of_ascii a <? RuneSelf)%N.

Fixpoint isASCII (s : string) : bool :=
  match s with
  | EmptyString => true
  | String a s' => isASCIIByte a && isASCII s'
  end.

Definition lowerByte (a : ascii) : ascii :=
  let n := N_of_ascii a in
  if (65 <=? n)%N && (n <=? 90)%N then ascii_of_N (n + 32) else a.

Fixpoint lower (s : string) : string :=
  match s with
  | EmptyString => EmptyString
  | String a s' => String (lowerByte a) (lower s')
  end.

(** ** Auxiliary definitions for the proofs *)

(** What the two loops of [mapIndexToField] leave at a column whose header
    cell is [header]: the last name, among the first
    [len(modelFieldsToColumns)] collected names, whose recorded tag equals
    the cell under [EqualFold]. *)
Definition resolveCell `{UnicodeFold} (T : list StructField) (header : string)
  : option string :=
  let fields := collectFields T in
  last (filter (λ name, Is_true (EqualFold (default "" (fields.2 !! name)) header))
               (take (size (fields.2)) (fields.1))).

(** The inner loop of [mapIndexToField] once the field name and its column
    tag are known. *)
Fixpoint scanColumn `{UnicodeFold} (column fieldName : string) (j : nat)
    (csvHeaders : list string) (indexToFieldName : gmap nat string)
  : gmap nat string :=
  match csvHeaders with
  | [] => indexToFieldName
  | header :: rest =>
      scanColumn column fieldName (S j) rest
        (if EqualFold column header
         then <[j := fieldName]> indexToFieldName
         else indexToFieldName)
  end.

(** The writes [assign] performs for one record, as (field name, data)
    pairs in cell order. *)
Definition writes (indexToFieldName : gmap nat string) (index : nat)
    (record : list string) : list (string * string) :=
  imap (λ k data, (default "" (indexToFieldName !! (index + k)), data)) record.

Fixpoint storeAll (T : list StructField) (ws : list (string * string))
    (model : list Value) : exec (list Value) :=
  match ws with
  | [] => Done model
  | w :: rest =>
      model ← SetString (FieldByName T (w.1)) (w.2) model;
      storeAll T rest model
  end.

(** All bytes. *)
Definition allBytes : list ascii := ascii_of_nat <$> seq 0 256.

(** Whether [SetString] accepts the field [FieldByName] finds under [name]:
    the field exists, is exported and is of kind string. *)
Definition settable (T : list StructField) (name : string) : bool :=
  match FieldByName T name with
  | Some (_, f) => Exported f && bool_decide (Type_ f = KString)
  | None => false
  end.

(** The panics raised by [reflect.Value.SetString]. *)
Definition isSetStringPanic (p : panic) : bool :=
  match p with
  | ValueError m _ => bool_decide (m = SetString_name)
  | UnexportedField m => bool_decide (m = SetString_name)
  | _ => false
  end.

(** Decide a closed decidable proposition by evaluation. *)
Ltac decide_by_compute :=
  apply (bool_decide_unpack _); vm_compute; exact I.

(** ** Lemmas on the monad *)

Lemma exec_bind_Done {A B} (k : A → exec B) (m : exec A) (b : B) :
  m ≫= k = Done b ↔ ∃ a, m = Done a ∧ k a = Done b.
Proof.
  destruct m as [a|p]; simpl.
  - split; [eauto | by intros (a' & [= ->] & ?)].
  - split; [done | by intros (? & ? & ?)].
Qed.

(** ** Validation *)

Lemma size_list_to_set_le (l : list string) :
  size (list_to_set l : gset string) ≤ length l.
Proof.
  induction l as [|x l IH]; [done|].
  - rewrite list_to_set_cons, size_union_alt, size_singleton. simpl.
    assert (list_to_set l ∖ {[x]} ⊆ (list_to_set l : gset string)) as Hsub
      by set_solver.
    apply subseteq_size in Hsub. lia.
Qed.

Lemma size_list_to_set_NoDup (l : list string) :
  size (list_to_set l : gset string) = length l ↔ NoDup l.
Proof.
  split; [|apply size_list_to_set].
  induction l as [|x l IH]; intros Hsz; [constructor|].
  rewrite list_to_set_cons in Hsz. simpl in Hsz.
  pose proof (size_list_to_set_le l) as Hle.
  destruct (decide (x ∈ l)) as [Hin|Hin].
  - assert ({[x]} ∪ list_to_set l = (list_to_set l : gset string)) as Heq
      by set_solver.
    rewrite Heq in Hsz. lia.
  - constructor; [done|]. apply IH.
    rewrite size_union, size_singleton in Hsz by set_solver. lia.
Qed.

(** The tag loop fails exactly when some field has an empty tag, and
    otherwise its map has the declared tags as keys. *)
Lemma collectTags_Exists fields i tags :
  Exists (λ f, columnTag f = "") fields →
  collectTags fields i tags = inl ErrMissingRequiredTag.
Proof.
  revert i tags. induction fields as [|f fields IH]; intros i tags Hex.
  - by apply Exists_nil in Hex.
  - simpl. case_decide as Htag; [done|].
    apply Exists_cons in Hex as [?|Hex]; [done|]. by apply IH.
Qed.

Lemma collectTags_dom fields i tags :
  ¬ Exists (λ f, columnTag f = "") fields →
  ∃ tags', collectTags fields i tags = inr tags' ∧
           dom tags' = list_to_set (columnTag <$> fields) ∪ dom tags.
Proof.
  revert i tags. induction fields as [|f fields IH]; intros i tags Hex; simpl.
  - exists tags. split; [done|set_solver].
  - rewrite Exists_cons in Hex. case_decide as Htag; [tauto|].
    destruct (IH (S i) (<[columnTag f := i]> tags)) as (tags' & -> & Hdom);
      [tauto|].
    exists tags'. split; [done|]. rewrite Hdom, dom_insert_L. set_solver.
Qed.

Lemma validateModelTags_spec T :
  validateModelTags T =
    if decide (Exists (λ f, columnTag f = "") T) then Some ErrMissingRequiredTag
    else if decide (NoDup (columnTag <$> T)) then None
    else Some ErrDuplicatedTag.
Proof.
  unfold validateModelTags. case_decide as Hex.
  - by rewrite collectTags_Exists.
  - destruct (collectTags_dom T 0 ∅ Hex) as (tags & -> & Hdom).
    rewrite dom_empty_L, (right_id_L ∅ (∪)) in Hdom.
    assert (size tags = length T ↔ NoDup (columnTag <$> T)) as Hiff.
    { rewrite <- size_list_to_set_NoDup, <- Hdom, size_dom, length_fmap.
      done. }
    repeat case_decide; tauto.
Qed.

Lemma validate_spec T hdr rest :
  validate T {| records := hdr :: rest; err := None |}
           {| SkipValidation := false |}
  = Done (schemaVerdict T hdr).
Proof.
  unfold validate, validateIntegrity, schemaVerdict; simpl.
  rewrite validateModelTags_spec.
  repeat case_decide; simpl; try done; repeat case_decide; done.
Qed.

(** A stored error is what every validation reports, whatever the
    configuration, the records and the schema. *)
Lemma validate_stored_error T c cfg e :
  err c = Some e → validate T c cfg = Done (Some e).
Proof. intros He. unfold validate, validateIntegrity. by rewrite He. Qed.

Lemma validate_uninitialized T cfg :
  validate T csvHelperImpl_zero cfg = Done (Some ErrUninitializedRecords).
Proof. done. Qed.

(** Validation never panics, and reports nothing but the stored error or
    one of four of the package's errors. *)
Lemma validate_cases T c cfg :
  ∃ oe, validate T c cfg = Done oe ∧
        (oe = None ∨ (is_Some oe ∧ oe = err c) ∨
         oe ∈ [Some ErrUninitializedRecords; Some ErrMissingRequiredTag;
               Some ErrDuplicatedTag; Some ErrInvalidHeaderSize]).
Proof.
  destruct c as [rs [e|]].
  - exists (Some e). split; [by apply validate_stored_error|].
    right; left. simpl. eauto.
  - destruct rs as [|hdr rest].
    + exists (Some ErrUninitializedRecords). split; [done|].
      right; right. set_solver.
    + destruct cfg as [[|]].
      * exists None. by split; [|left].
      * rewrite validate_spec. eexists; split; [done|].
        unfold schemaVerdict. repeat case_decide; set_solver.
Qed.

Section accessors.
Context `{UnicodeFold}.

(** The accessors on a helper whose validation reports [e]. *)
Lemma accessors_validation_error T c e :
  validate T c {| SkipValidation := false |} = Done (Some e) →
  Validate T c = Done (false, Some e) ∧
  Records T c = Done ([], Some e) ∧
  Error T c = Done (Some e).
Proof. intros Hv. unfold Validate, Records, Error. by rewrite Hv. Qed.

Lemma Marshal_validation_error T c cfg e :
  validate T c {| SkipValidation := MarshalConfig_SkipValidation cfg |}
    = Done (Some e) →
  Marshal T c cfg = Done ([], Some e).
Proof. intros Hv. unfold Marshal. by rewrite Hv. Qed.

(** [mapIndexToField] and [assign] report no error of their own. *)
Lemma mapIndexToField_no_error T csv m oe :
  mapIndexToField T csv = Done (m, oe) → oe = None.
Proof.
  unfold mapIndexToField. intros Hm.
  apply exec_bind_Done in Hm as (hdr & _ & Hm).
  apply exec_bind_Done in Hm as (m' & _ & Hm). by simplify_eq.
Qed.

Lemma assign_no_error T rs m out oe :
  assign T rs m = Done (out, oe) → oe = None.
Proof.
  unfold assign. intros Ha.
  apply exec_bind_Done in Ha as (out' & _ & Ha). by simplify_eq.
Qed.

(** An error returned by [Marshal] is the one validation reported. *)
Lemma Marshal_error_inv T c cfg out e :
  Marshal T c cfg = Done (out, Some e) →
  validate T c {| SkipValidation := MarshalConfig_SkipValidation cfg |}
    = Done (Some e).
Proof.
  unfold Marshal. intros Hm.
  apply exec_bind_Done in Hm as ([e'|] & Hv & Hm); [by simplify_eq|].
  apply exec_bind_Done in Hm as ([m oe] & Hmap & Hm).
  apply mapIndexToField_no_error in Hmap as ->. simpl in Hm.
  destruct out; by apply assign_no_error in Hm.
Qed.

Lemma Marshal_success_inv T c cfg out :
  Marshal T c cfg = Done (out, None) →
  validate T c {| SkipValidation := MarshalConfig_SkipValidation cfg |}
    = Done None ∧
  ∃ m, mapIndexToField T (records c) = Done (m, None) ∧
       assignRecords T m 0 (records c) [] = Done out.
Proof.
  unfold Marshal. intros Hm.
  apply exec_bind_Done in Hm as ([e'|] & Hv & Hm); [by simplify_eq|].
  split; [done|].
  apply exec_bind_Done in Hm as ([m oe] & Hmap & Hm).
  pose proof (mapIndexToField_no_error _ _ _ _ Hmap) as ->. simpl in Hm.
  exists m. split; [done|]. unfold assign in Hm.
  apply exec_bind_Done in Hm as (out' & Ha & Hm). by simplify_eq.
Qed.
End accessors.

(** ** Calls through handles *)

Section handles.
Context `{UnicodeFold} `{CsvReader}.

(** No method writes to the store. *)
Lemma invoke_store T σ h m σ' r :
  invoke T σ h m = Done (σ', r) → σ' = σ.
Proof.
  unfold invoke. intros Hi.
  apply exec_bind_Done in Hi as (c & _ & Hi).
  destruct m; [by simplify_eq|..];
    apply exec_bind_Done in Hi as (? & _ & ?); by simplify_eq.
Qed.

Lemma receiver_New σ :
  receiver (New σ).1 (New σ).2 = Done csvHelperImpl_zero.
Proof. unfold New; simpl. by rewrite lookup_insert_eq. Qed.

(** An accessor called on a helper that holds a stored error. *)
Lemma invoke_stored_error T σ h c e m :
  receiver σ h = Done c → err c = Some e → isAccessor m = true →
  ∃ r, invoke T σ h m = Done (σ, r) ∧ errorOf r = Some e.
Proof.
  intros Hr He Hm. unfold invoke. rewrite Hr; simpl.
  pose proof (validate_stored_error T c {| SkipValidation := false |} e He)
    as Hv.
  destruct (accessors_validation_error T c e Hv) as (HV & HR & HE).
  destruct m as [|  |  |  |cfg]; simpl in *; [done|..].
  - rewrite HV. by eexists.
  - rewrite HR. by eexists.
  - rewrite HE. by eexists.
  - rewrite (Marshal_validation_error T c cfg e); [by eexists|].
    by apply validate_stored_error.
Qed.

Lemma invokeAll_stored_error T σ h c e ms :
  receiver σ h = Done c → err c = Some e →
  forallb isAccessor ms = true →
  ∃ rs, invokeAll T σ h ms = Done (σ, rs) ∧
        length rs = length ms ∧
        Forall (λ r, errorOf r = Some e) rs.
Proof.
  intros Hr He. induction ms as [|m ms IH]; simpl; intros Hms.
  - exists []. by repeat split.
  - apply andb_prop in Hms as [Hm Hms].
    destruct (invoke_stored_error T σ h c e m Hr He Hm) as (r & -> & Her).
    destruct (IH Hms) as (rs & Hrs & Hlen & Hall). simpl.
    rewrite Hrs. simpl. exists (r :: rs).
    repeat split; [by rewrite <- Hlen | by constructor].
Qed.
End handles.

(** ** Header resolution *)

Lemma collectFields_snoc T f :
  collectFields (T ++ [f]) =
    ((collectFields T).1 ++ [Name f],
     <[Name f := columnTag f]> ((collectFields T).2)).
Proof. unfold collectFields. by rewrite foldl_snoc. Qed.

Lemma collectFields_names T : (collectFields T).1 = Name <$> T.
Proof.
  induction T as [|f T IH] using rev_ind; [done|].
  by rewrite collectFields_snoc, fmap_app, <- IH.
Qed.

Lemma collectFields_dom T :
  dom (collectFields T).2 = list_to_set (Name <$> T).
Proof.
  induction T as [|f T IH] using rev_ind; [set_solver|].
  rewrite collectFields_snoc, fmap_app; simpl.
  rewrite dom_insert_L, IH, list_to_set_app_L. set_solver.
Qed.

Lemma collectFields_size_le T : size (collectFields T).2 ≤ length T.
Proof.
  rewrite <- size_dom, collectFields_dom, <- (length_fmap Name T).
  apply size_list_to_set_le.
Qed.

Lemma collectFields_size T :
  NoDup (Name <$> T) → size (collectFields T).2 = length T.
Proof.
  intros Hnd. rewrite <- size_dom, collectFields_dom, <- (length_fmap Name T).
  by apply size_list_to_set_NoDup.
Qed.

Lemma collectFields_lookup T i f :
  NoDup (Name <$> T) → T !! i = Some f →
  (collectFields T).2 !! Name f = Some (columnTag f).
Proof.
  revert i. induction T as [|g T IH] using rev_ind; intros i Hnd Hi; [done|].
  rewrite collectFields_snoc; simpl.
  rewrite fmap_app in Hnd. apply NoDup_app in Hnd as (Hnd & Hdisj & _).
  destruct (decide (i < length T)) as [Hlt|Hge].
  - rewrite lookup_app_l in Hi by done.
    rewrite lookup_insert_ne; [by eapply IH|].
    intros Heq. apply (Hdisj (Name f)); [|set_solver].
    apply list_elem_of_fmap. exists f. split; [done|].
    by eapply list_elem_of_lookup_2.
  - rewrite lookup_app_r in Hi by lia.
    apply list_lookup_singleton_Some in Hi as [_ <-].
    by rewrite lookup_insert_eq.
Qed.

Section resolver.
Context `{UnicodeFold}.

Lemma scanHeaders_scanColumn names cols i name j hdr m :
  names !! i = Some name →
  scanHeaders names cols i j hdr m
  = Done (scanColumn (default "" (cols !! name)) name j hdr m).
Proof.
  revert j m. induction hdr as [|h hdr IH]; intros j m Hi; [done|].
  simpl. unfold index. rewrite Hi. simpl.
  destruct (EqualFold _ h); simpl; by rewrite IH.
Qed.

Lemma scanColumn_lookup column name j0 hdr m j :
  scanColumn column name j0 hdr m !! j =
    if decide (j0 ≤ j) then
      match hdr !! (j - j0) with
      | Some h => if EqualFold column h then Some name else m !! j
      | None => m !! j
      end
    else m !! j.
Proof.
  revert j0 m. induction hdr as [|h hdr IH]; intros j0 m; simpl.
  - by case_decide.
  - rewrite IH. destruct (decide (j = j0)) as [->|Hne].
    + rewrite Nat.sub_diag; simpl.
      rewrite decide_False by lia. rewrite decide_True by lia.
      destruct (EqualFold column h); [by rewrite lookup_insert_eq|done].
    + destruct (decide (j0 ≤ j)) as [Hle|Hgt].
      * rewrite decide_True by lia.
        replace (j - j0) with (S (j - S j0)) by lia; simpl.
        destruct (EqualFold column h);
          destruct (hdr !! (j - S j0)) as [h'|];
          try destruct (EqualFold column h');
          rewrite ?lookup_insert_ne by done; done.
      * rewrite decide_False by lia.
        destruct (EqualFold column h); [by rewrite lookup_insert_ne|done].
Qed.

(** The outer loop run for the first [n] names. *)
Lemma resolveHeaders_prefix (names : list string) (cols : gmap string string)
    hdr n :
  n ≤ length names →
  ∃ m : gmap nat string,
    foldl (λ acc i,
             indexToFieldName ← acc;
             scanHeaders names cols i 0 hdr indexToFieldName)
          (Done ∅) (seq 0 n) = Done m ∧
    ∀ j, m !! j =
         hdr !! j ≫= λ h,
           last (filter (λ name, Is_true (EqualFold (default "" (cols !! name)) h))
                        (take n names)).
Proof.
  induction n as [|n IH]; intros Hn.
  - exists ∅. split; [done|]. intros j. rewrite lookup_empty.
    by destruct (hdr !! j).
  - destruct IH as (m & Hm & Hlook); [lia|].
    destruct (lookup_lt_is_Some_2 names n) as [name Hname]; [lia|].
    rewrite seq_S, foldl_snoc, Hm; simpl.
    rewrite (scanHeaders_scanColumn _ _ _ name) by done.
    eexists; split; [done|].
    intros j. rewrite scanColumn_lookup, decide_True by lia.
    rewrite Nat.sub_0_r, Hlook, (take_S_r _ _ _ Hname).
    destruct (hdr !! j) as [h|]; simpl; [|done].
    rewrite filter_app, filter_cons, filter_nil.
    destruct (EqualFold (default "" (cols !! name)) h) eqn:Heq.
    + rewrite decide_True by done. by rewrite last_snoc.
    + rewrite decide_False by (by intros []). by rewrite app_nil_r.
Qed.

(** The Header-to-Field map, column by column. *)
Lemma mapIndexToField_lookup T hdr rest :
  ∃ m, mapIndexToField T (hdr :: rest) = Done (m, None) ∧
       ∀ j, m !! j = hdr !! j ≫= resolveCell T.
Proof.
  unfold mapIndexToField, resolveHeaders; simpl.
  destruct (resolveHeaders_prefix (collectFields T).1 (collectFields T).2
              hdr (size (collectFields T).2)) as (m & Hm & Hlook).
  { rewrite collectFields_names, length_fmap. apply collectFields_size_le. }
  rewrite Hm; simpl. by exists m.
Qed.

(** With pairwise distinct field names, a cell resolves to the last
    declared field whose tag equals it under [EqualFold]. *)
Lemma resolveCell_resolve T h :
  NoDup (Name <$> T) → resolveCell T h = resolve T h.
Proof.
  intros Hnd. unfold resolveCell, resolve.
  rewrite collectFields_size, collectFields_names by done.
  rewrite <- (length_fmap Name T), firstn_all.
  assert (∀ l : list StructField, (∀ f, f ∈ l → f ∈ T) →
    filter (λ name, Is_true (EqualFold (default "" ((collectFields T).2 !! name)) h))
           (Name <$> l)
    = Name <$> filter (λ f, Is_true (EqualFold (columnTag f) h)) l) as Hfil.
  { induction l as [|f l IH]; intros Hl; [done|].
    rewrite fmap_cons, !filter_cons.
    assert (f ∈ T) as Hf by (apply Hl; set_solver).
    apply list_elem_of_lookup in Hf as [i Hi].
    rewrite (collectFields_lookup T i f Hnd Hi); simpl.
    rewrite IH by (intros; apply Hl; set_solver).
    by case_decide. }
  rewrite Hfil by done. by rewrite fmap_last.
Qed.
End resolver.

(** ** Row binding *)

Lemma FieldByName_Some T name k f :
  FieldByName T name = Some (k, f) →
  name ≠ "" ∧ T !! k = Some f ∧ Name f = name.
Proof.
  unfold FieldByName. case_decide; [done|].
  intros (? & ? & _)%list_find_Some. done.
Qed.

Lemma SetString_Done v x model model' :
  SetString v x model = Done model' →
  ∃ k f, v = Some (k, f) ∧ Exported f = true ∧ Type_ f = KString ∧
         model' = <[k := VString x]> model.
Proof.
  destruct v as [[k f]|]; simpl; [|done].
  destruct (Exported f) eqn:He; simpl; [|done].
  case_decide; [|done]. intros [= <-]. by exists k, f.
Qed.

Lemma SetString_Some k f x model :
  Exported f = true → Type_ f = KString →
  SetString (Some (k, f)) x model = Done (<[k := VString x]> model).
Proof. intros He Ht. simpl. rewrite He; simpl. by rewrite decide_True. Qed.

(** A cell at a column the map does not know makes [SetString] panic. *)
Lemma SetString_unmapped T x model :
  SetString (FieldByName T "") x model
  = Panicked (ValueError SetString_name KInvalid).
Proof. done. Qed.

Lemma assignCells_unmapped T m index data rest model :
  m !! index = None →
  assignCells T m index (data :: rest) model
  = Panicked (ValueError SetString_name KInvalid).
Proof. intros Hm. simpl. by rewrite Hm. Qed.

Lemma assignCells_storeAll T m index record model :
  assignCells T m index record model
  = storeAll T (writes m index record) model.
Proof.
  revert index model. induction record as [|data rest IH]; intros index model;
    [done|].
  unfold writes; simpl. rewrite Nat.add_0_r.
  destruct (SetString _ data model) as [model'|p]; simpl; [|done].
  rewrite IH. unfold writes. f_equal. apply imap_ext. intros k d _. simpl.
  by rewrite Nat.add_succ_r.
Qed.

(** Writes to fields of different names commute. *)
Lemma SetString_commute T n1 x1 n2 x2 model r :
  n1 ≠ n2 →
  SetString (FieldByName T n1) x1 model ≫= SetString (FieldByName T n2) x2
    = Done r →
  SetString (FieldByName T n2) x2 model ≫= SetString (FieldByName T n1) x1
    = Done r.
Proof.
  intros Hne Hs. apply exec_bind_Done in Hs as (model1 & H1 & H2).
  apply SetString_Done in H1 as (k1 & f1 & Hf1 & He1 & Ht1 & ->).
  apply SetString_Done in H2 as (k2 & f2 & Hf2 & He2 & Ht2 & ->).
  rewrite Hf1, Hf2. rewrite (SetString_Some k2) by done.
  unfold mbind, exec_bind. rewrite (SetString_Some k1) by done.
  apply FieldByName_Some in Hf1 as (_ & Hk1 & Hn1).
  apply FieldByName_Some in Hf2 as (_ & Hk2 & Hn2).
  f_equal. apply list_insert_insert_ne. intros ->. congruence.
Qed.

(** The result of a successful sequence of writes to pairwise different
    fields does not depend on their order. *)
Lemma storeAll_Permutation T ws ws' model r :
  ws ≡ₚ ws' → NoDup (ws.*1) →
  storeAll T ws model = Done r → storeAll T ws' model = Done r.
Proof.
  intros Hp. revert model r.
  induction Hp as [|w ws ws' Hp IH|w1 w2 ws|ws ws' ws'' Hp1 IH1 Hp2 IH2];
    intros model r Hnd Hs.
  - done.
  - simpl in *. apply NoDup_cons in Hnd as [_ Hnd].
    destruct (SetString _ _ model) as [model'|]; simpl in *; [|done].
    by apply IH.
  - simpl in Hnd. apply NoDup_cons in Hnd as [Hw _].
    assert (w2.1 ≠ w1.1) as Hne by set_solver.
    change (storeAll T (w2 :: w1 :: ws) model)
      with (SetString (FieldByName T (w2.1)) (w2.2) model
              ≫= (λ model', SetString (FieldByName T (w1.1)) (w1.2) model'
                              ≫= storeAll T ws)) in Hs.
    change (storeAll T (w1 :: w2 :: ws) model)
      with (SetString (FieldByName T (w1.1)) (w1.2) model
              ≫= (λ model', SetString (FieldByName T (w2.1)) (w2.2) model'
                              ≫= storeAll T ws)).
    apply exec_bind_Done in Hs as (model2 & H2 & Hs).
    apply exec_bind_Done in Hs as (model12 & H1 & Hs).
    assert (SetString (FieldByName T (w1.1)) (w1.2) model
              ≫= SetString (FieldByName T (w2.1)) (w2.2) = Done model12) as Hc.
    { apply SetString_commute; [done|]. by rewrite H2. }
    apply exec_bind_Done in Hc as (model1 & H1' & H2').
    rewrite H1'; simpl. by rewrite H2'.
  - apply IH2; [|by apply IH1].
    by rewrite <- Hp1.
Qed.

(** A successful sequence of writes names only fields the type has. *)
Lemma storeAll_names T ws model r :
  storeAll T ws model = Done r → Forall (λ w, w.1 ≠ "") ws.
Proof.
  revert model. induction ws as [|w ws IH]; intros model Hs; [constructor|].
  simpl in Hs. apply exec_bind_Done in Hs as (model' & Hw & Hs).
  constructor; [|by eapply IH].
  apply SetString_Done in Hw as (k & f & Hf & _).
  by apply FieldByName_Some in Hf as (? & _).
Qed.

(** The data rows are bound one by one, in order, after the output so
    far. *)
Lemma assignRecords_S T m i rs out out' :
  assignRecords T m (S i) rs out = Done out' ↔
  ∃ models,
    Forall2 (λ r model, assignCells T m 0 r (zero T) = Done model) rs models ∧
    out' = out ++ models.
Proof.
  revert i out. induction rs as [|r rs IH]; intros i out; simpl.
  - split.
    + intros [= <-]. exists []. by rewrite app_nil_r.
    + intros (models & ->%Forall2_nil_inv_l & ->). by rewrite app_nil_r.
  - split.
    + intros (model & Hr & Hrs)%exec_bind_Done.
      apply IH in Hrs as (models & Hall & ->).
      exists (model :: models). split; [by constructor|].
      by rewrite <- app_assoc.
    + intros (models & Hall & ->).
      apply Forall2_cons_inv_l in Hall as (model & models' & Hr & Hall & ->).
      rewrite Hr; simpl. apply IH. exists models'. split; [done|].
      by rewrite <- app_assoc.
Qed.

Lemma assignRecords_header T m hdr rows out :
  assignRecords T m 0 (hdr :: rows) [] = Done out ↔
  Forall2 (λ r model, assignCells T m 0 r (zero T) = Done model) rows out.
Proof.
  simpl. rewrite assignRecords_S. split.
  - by intros (models & Hall & ->).
  - intros Hall. by exists out.
Qed.

(** ** Reordering columns *)

Lemma permute_lookup {A} (p : list nat) (l : list A) j :
  Forall (λ i, i < length l) p →
  permute p l !! j = p !! j ≫= λ i, l !! i.
Proof.
  unfold permute. revert j. induction p as [|i p IH]; intros j Hp; [done|].
  apply Forall_cons in Hp as [Hi Hp].
  destruct (lookup_lt_is_Some_2 l i Hi) as [x Hx]. simpl. rewrite Hx.
  destruct j as [|j]; simpl; [done|]. by apply IH.
Qed.

Lemma permute_seq {A} (l : list A) : permute (seq 0 (length l)) l = l.
Proof.
  apply list_eq. intros j. rewrite permute_lookup.
  - destruct (decide (j < length l)) as [Hlt|Hge].
    + by rewrite lookup_seq_lt.
    + rewrite lookup_seq_ge by lia. simpl. symmetry.
      apply lookup_ge_None. lia.
  - apply Forall_seq. intros; lia.
Qed.

Lemma permute_Permutation {A} (p : list nat) (l : list A) :
  p ≡ₚ seq 0 (length l) → permute p l ≡ₚ l.
Proof.
  intros Hp. unfold permute. rewrite Hp. fold (permute (seq 0 (length l)) l).
  by rewrite permute_seq.
Qed.

Lemma permute_bounds (p : list nat) n :
  p ≡ₚ seq 0 n → Forall (λ i, i < n) p.
Proof. intros ->. apply Forall_seq. intros; lia. Qed.

Lemma permute_length {A} (p : list nat) (l : list A) :
  p ≡ₚ seq 0 (length l) → length (permute p l) = length l.
Proof. intros Hp. by rewrite (permute_Permutation p l Hp). Qed.

(** The values of a map with pairwise distinct values determine the
    keys. *)
Lemma map_values_NoDup_inj (m : gmap nat string) j j' f :
  NoDup (map_to_list m).*2 →
  m !! j = Some f → m !! j' = Some f → j = j'.
Proof.
  intros Hnd Hj Hj'.
  apply elem_of_map_to_list, list_elem_of_lookup in Hj as [a Ha].
  apply elem_of_map_to_list, list_elem_of_lookup in Hj' as [b Hb].
  assert (a = b) as ->.
  { eapply (NoDup_lookup _ a b f Hnd); rewrite list_lookup_fmap.
    - by rewrite Ha.
    - by rewrite Hb. }
  congruence.
Qed.

(** The validation of a helper that holds records and no error looks at
    the header's length only. *)
Lemma validate_header_length T hdr rows hdr' rows' cfg :
  length hdr = length hdr' →
  validate T {| records := hdr :: rows; err := None |} cfg
  = validate T {| records := hdr' :: rows'; err := None |} cfg.
Proof.
  intros Hlen. destruct cfg as [[|]]; [done|].
  rewrite !validate_spec. unfold schemaVerdict. by rewrite Hlen.
Qed.

Section reorder.
Context `{UnicodeFold}.

(** Binding a reordered record under the map of the reordered header. *)
Lemma assignCells_permute T (m m' : gmap nat string) p r model out :
  p ≡ₚ seq 0 (length r) →
  (∀ j, m' !! j = p !! j ≫= λ i, m !! i) →
  NoDup (map_to_list m).*2 →
  assignCells T m 0 r model = Done out →
  assignCells T m' 0 (permute p r) model = Done out.
Proof.
  intros Hp Hm' Hnd. rewrite !assignCells_storeAll. intros Hs.
  pose proof (permute_bounds p _ Hp) as Hb.
  assert (writes m' 0 (permute p r) = permute p (writes m 0 r)) as ->.
  { apply list_eq. intros j. unfold writes at 1.
    rewrite list_lookup_imap, !permute_lookup, Hm'; simpl.
    - destruct (p !! j) as [i|]; simpl; [|done].
      unfold writes. by rewrite list_lookup_imap.
    - unfold writes. by rewrite length_imap.
    - done. }
  apply (storeAll_Permutation T (writes m 0 r)); [| |done].
  - symmetry. apply permute_Permutation. unfold writes.
    by rewrite length_imap.
  - apply NoDup_alt. intros i j name Hi Hj.
    pose proof (storeAll_names _ _ _ _ Hs) as Hnames.
    rewrite list_lookup_fmap in Hi, Hj.
    destruct (writes m 0 r !! i) as [wi|] eqn:Hwi; [|done].
    destruct (writes m 0 r !! j) as [wj|] eqn:Hwj; [|done].
    pose proof (Forall_lookup_1 _ _ _ _ Hnames Hwi) as Hni.
    pose proof (Forall_lookup_1 _ _ _ _ Hnames Hwj) as Hnj.
    unfold writes in Hwi, Hwj. rewrite list_lookup_imap in Hwi, Hwj.
    destruct (r !! i); [|done]. destruct (r !! j); [|done].
    simpl in *. simplify_eq. simpl in *.
    destruct (m !! i) as [fi|] eqn:Hmi; [|done].
    destruct (m !! j) as [fj|] eqn:Hmj; [|done].
    simpl in *. subst. by eapply map_values_NoDup_inj.
Qed.

(** C3 (amended): on a table with a header and data rows of the header's
    width on which [Marshal] succeeds, and whose Header-to-Field map sends
    different columns to different fields, applying one permutation to
    the cells of the header and of every data row leaves the result of
    [Marshal] unchanged, instance by instance and field by field. *)
Theorem C3_column_order_independence T hdr rows cfg m out p :
  Marshal T {| records := hdr :: rows; err := None |} cfg
    = Done (out, None) →
  mapIndexToField T (hdr :: rows) = Done (m, None) →
  NoDup (map_to_list m).*2 →
  Forall (λ r, length r = length hdr) rows →
  p ≡ₚ seq 0 (length hdr) →
  Marshal T {| records := permuteTable p (hdr :: rows); err := None |} cfg
    = Done (out, None).
Proof.
  intros HM Hm Hnd Hrect Hp.
  apply Marshal_success_inv in HM as (Hv & m0 & Hm0 & Ha).
  cbn [records] in Hm0, Ha. rewrite Hm in Hm0. injection Hm0 as <-.
  destruct (mapIndexToField_lookup T hdr rows) as (m1 & Hm1 & Hlook).
  rewrite Hm in Hm1. injection Hm1 as <-.
  destruct (mapIndexToField_lookup T (permute p hdr) (permute p <$> rows))
    as (m' & Hm' & Hlook').
  unfold Marshal, permuteTable. rewrite fmap_cons. cbn [records].
  rewrite (validate_header_length T _ _ hdr rows), Hv by
    (by apply permute_length).
  cbn [mbind exec_bind]. rewrite Hm'. cbn [mbind exec_bind fst snd].
  unfold assign.
  assert (∀ j, m' !! j = p !! j ≫= λ i, m !! i) as Hmm.
  { intros j. rewrite Hlook', permute_lookup by by apply permute_bounds.
    destruct (p !! j) as [i|]; simpl; [|done]. by rewrite Hlook. }
  apply assignRecords_header in Ha.
  assert (assignRecords T m' 0 (permute p hdr :: (permute p <$> rows)) []
          = Done out) as ->; [|done].
  apply assignRecords_header. apply Forall2_fmap_l.
  clear Hv Hm Hm' Hlook Hlook'.
  induction Ha as [|r model rows out Hr Ha IH]; [constructor|].
  apply Forall_cons in Hrect as [Hlen Hrect].
  constructor; [|by apply IH].
  eapply assignCells_permute; [by rewrite Hlen|done..].
Qed.
End reorder.

(** ** [EqualFold] on ASCII strings *)

Lemma elem_of_allBytes a : a ∈ allBytes.
Proof.
  unfold allBytes. apply list_elem_of_fmap. exists (nat_of_ascii a).
  split; [by rewrite ascii_nat_embedding|].
  apply elem_of_seq. pose proof (nat_ascii_bounded a). lia.
Qed.

Lemma allBytes_pairs (P : ascii → ascii → bool) :
  forallb (λ a, forallb (P a) allBytes) allBytes = true →
  ∀ a b, P a b = true.
Proof.
  intros HP a b. rewrite forallb_forall in HP.
  specialize (HP a (proj1 (list_elem_of_In _ _) (elem_of_allBytes a))).
  rewrite forallb_forall in HP.
  apply HP, list_elem_of_In, elem_of_allBytes.
Qed.

(** One step of the fast path on two ASCII bytes: the slow path is not
    entered, and the bytes match exactly when their lower-case forms are
    equal. *)
Lemma foldStep_ASCII a b :
  isASCIIByte a = true → isASCIIByte b = true →
  (RuneSelf <=? N.lor (N_of_ascii a) (N_of_ascii b))%N = false ∧
  ((N_of_ascii b =? N_of_ascii a)%N
   || (let lo := if (N_of_ascii b <? N_of_ascii a)%N
                 then N_of_ascii b else N_of_ascii a in
       let hi := if (N_of_ascii b <? N_of_ascii a)%N
                 then N_of_ascii a else N_of_ascii b in
       (65 <=? lo)%N && (lo <=? 90)%N && (hi =? (lo + 97 - 65) mod 256)%N))
  = bool_decide (lowerByte a = lowerByte b).
Proof.
  intros Ha Hb.
  pose proof (allBytes_pairs (λ a b,
    implb (isASCIIByte a && isASCIIByte b)
      (negb (RuneSelf <=? N.lor (N_of_ascii a) (N_of_ascii b))%N
       && bool_decide
            (((N_of_ascii b =? N_of_ascii a)%N
              || (let lo := if (N_of_ascii b <? N_of_ascii a)%N
                            then N_of_ascii b else N_of_ascii a in
                  let hi := if (N_of_ascii b <? N_of_ascii a)%N
                            then N_of_ascii a else N_of_ascii b in
                  (65 <=? lo)%N && (lo <=? 90)%N
                  && (hi =? (lo + 97 - 65) mod 256)%N))
             = bool_decide (lowerByte a = lowerByte b))))) as Hall.
  specialize (Hall ltac:(vm_compute; reflexivity) a b).
  cbv beta in Hall. rewrite Ha, Hb in Hall. cbn [andb implb] in Hall.
  apply andb_prop in Hall as [H1 H2].
  apply negb_true_iff in H1. apply bool_decide_eq_true in H2. done.
Qed.

Section fold.
Context `{UnicodeFold}.

Lemma EqualFold_ASCII s t :
  isASCII s = true → isASCII t = true →
  EqualFold s t = bool_decide (lower s = lower t).
Proof.
  revert t. induction s as [|a s IH]; intros [|b t] Hs Ht; try done.
  simpl in Hs, Ht.
  apply andb_prop in Hs as [Ha Hs]. apply andb_prop in Ht as [Hb Ht].
  destruct (foldStep_ASCII a b Ha Hb) as [Hfast Hstep].
  cbn [EqualFold lower]. cbv zeta in Hstep |- *. rewrite Hfast.
  specialize (IH t Hs Ht).
  destruct (N_of_ascii b =? N_of_ascii a)%N; simpl in Hstep.
  - symmetry in Hstep. apply bool_decide_eq_true in Hstep.
    rewrite IH, Hstep. apply bool_decide_ext. split; congruence.
  - rewrite Hstep. case_bool_decide as Hab.
    + rewrite IH. apply bool_decide_ext. split; congruence.
    + symmetry. apply bool_decide_eq_false. congruence.
Qed.
End fold.

(** ** The claims on validation and on the helper state *)

Lemma validate_None T c cfg :
  validate T c cfg = Done None →
  err c = None ∧ ∃ hdr rows, records c = hdr :: rows.
Proof.
  unfold validate, validateIntegrity. destruct (err c); [done|].
  case_decide as Hlen; [done|]. intros _. split; [done|].
  destruct (records c) as [|hdr rows]; [done|]. eauto.
Qed.

(** C7: with the schema checks enabled on a helper that holds records and no
    error, validation answers what the specification's ordered checks
    answer: [MissingRequiredTag] if some field has an empty tag, otherwise
    [DuplicatedTag] if two fields share a tag, otherwise
    [InvalidHeaderSize] if the header's cell count differs from the number
    of fields, otherwise success; [Validate] returns accordingly. *)
Theorem C7_schema_checks_in_fixed_order T hdr rest :
  validate T {| records := hdr :: rest; err := None |}
           {| SkipValidation := false |}
    = Done (schemaVerdict T hdr) ∧
  Validate T {| records := hdr :: rest; err := None |}
    = Done (match schemaVerdict T hdr with
            | Some e => (false, Some e)
            | None => (true, None)
            end).
Proof.
  split; [apply validate_spec|].
  unfold Validate. rewrite validate_spec. simpl.
  by destruct (schemaVerdict T hdr).
Qed.

Section claims_state.
Context `{UnicodeFold} `{CsvReader}.

(** C5: on the handle returned by [New], before any read, [Validate],
    [Records], [Error] and [Marshal] (with any configuration) all fail
    with [ErrUninitializedRecords]. *)
Theorem C5_uninitialized_before_read T σ cfg :
  let σ' := (New σ).1 in
  let h := (New σ).2 in
  invoke T σ' h CallValidate
    = Done (σ', RetValidate (false, Some ErrUninitializedRecords)) ∧
  invoke T σ' h CallRecords
    = Done (σ', RetRecords ([], Some ErrUninitializedRecords)) ∧
  invoke T σ' h CallError
    = Done (σ', RetError (Some ErrUninitializedRecords)) ∧
  invoke T σ' h (CallMarshal cfg)
    = Done (σ', RetMarshal ([], Some ErrUninitializedRecords)).
Proof.
  intros σ' h. unfold invoke, σ', h. rewrite receiver_New.
  repeat split.
Qed.

(** C6: when the helper behind a handle holds a stored error, each of
    [Validate], [Records], [Error] and [Marshal] returns exactly that
    error, whatever the records, the schema and the configuration, and
    any sequence of accessor calls on the handle leaves the store
    unchanged and returns that error at every call. *)
Theorem C6_stored_error_is_sticky T σ h c e ms :
  receiver σ h = Done c → err c = Some e →
  forallb isAccessor ms = true →
  (Validate T c = Done (false, Some e) ∧
   Records T c = Done ([], Some e) ∧
   Error T c = Done (Some e) ∧
   ∀ cfg, Marshal T c cfg = Done ([], Some e)) ∧
  ∃ rs, invokeAll T σ h ms = Done (σ, rs) ∧
        length rs = length ms ∧
        Forall (λ r, errorOf r = Some e) rs.
Proof.
  intros Hr He Hms. split; [|by eapply invokeAll_stored_error].
  pose proof (validate_stored_error T c {| SkipValidation := false |} e He)
    as Hv.
  destruct (accessors_validation_error T c e Hv) as (HV & HR & HE).
  repeat split; try done.
  intros cfg. apply Marshal_validation_error.
  by apply validate_stored_error.
Qed.

(** C8: [ReadAll] through a handle returns a new handle that carries the
    records and the error just read, and leaves the store as it was: the
    helper behind the original handle, and the result of every later call
    through it, are unchanged. *)
Theorem C8_ReadAll_is_copy_on_write T σ h c buffer :
  receiver σ h = Done c →
  ∃ σ' h',
    invoke T σ h (CallReadAll buffer) = Done (σ', RetReadAll h') ∧
    receiver σ' h' = Done {| records := (csvReadAll buffer).1;
                             err := ReaderError <$> (csvReadAll buffer).2 |} ∧
    σ' = σ ∧
    receiver σ' h = Done c ∧
    ∀ m, invoke T σ' h m = invoke T σ h m.
Proof.
  intros Hr. exists σ, (Boxed (ReadAll c buffer)).
  unfold invoke. rewrite Hr. simpl. repeat split; try done.
  unfold ReadAll. by destruct (csvReadAll buffer).
Qed.

(** C10: a helper that holds no error and whose header has as many cells
    as a valid schema has fields passes [Validate], whatever the header
    cells are; and [ErrInvalidHeaderValues] is never stored by [New] or
    [ReadAll], nor returned by a call on a helper that does not store
    it. *)
Theorem C10_header_contents_not_validated T hdr rest :
  validSchema T → length hdr = length T →
  Validate T {| records := hdr :: rest; err := None |} = Done (true, None) ∧
  err csvHelperImpl_zero ≠ Some ErrInvalidHeaderValues ∧
  (∀ c buffer, err (ReadAll c buffer) ≠ Some ErrInvalidHeaderValues) ∧
  (∀ σ h c m σ' r,
     receiver σ h = Done c → err c ≠ Some ErrInvalidHeaderValues →
     invoke T σ h m = Done (σ', r) →
     errorOf r ≠ Some ErrInvalidHeaderValues).
Proof.
  intros [Htags Hnd] Hlen. split; [|split; [done|split]].
  - unfold Validate. rewrite validate_spec. unfold schemaVerdict.
    rewrite decide_False; [|by apply Forall_Exists_neg].
    by rewrite !decide_True.
  - intros c buffer. unfold ReadAll.
    by destruct (csvReadAll buffer) as [rs [e|]].
  - intros σ h c m σ' r Hr Hc Hi. unfold invoke in Hi. rewrite Hr in Hi.
    simpl in Hi.
    assert (∀ cfg oe, validate T c cfg = Done oe →
                      oe ≠ Some ErrInvalidHeaderValues) as Hval.
    { intros cfg oe Hv.
      destruct (validate_cases T c cfg) as (oe' & Hv' & Hcases).
      rewrite Hv in Hv'. injection Hv' as <-.
      destruct Hcases as [->|[[_ ->]|Hin]]; [done|done|].
      intros ->. set_solver. }
    destruct m as [buffer| | | |cfg]; simpl in Hi.
    + by injection Hi as <- <-.
    + unfold Validate in Hi.
      apply exec_bind_Done in Hi as (r' & Hi & Heq). injection Heq as <- <-.
      apply exec_bind_Done in Hi as (oe & Hv & Hi).
      apply Hval in Hv. destruct oe; injection Hi as <-; simpl; congruence.
    + unfold Records in Hi.
      apply exec_bind_Done in Hi as (r' & Hi & Heq). injection Heq as <- <-.
      apply exec_bind_Done in Hi as (oe & Hv & Hi).
      apply Hval in Hv. destruct oe; injection Hi as <-; simpl; congruence.
    + unfold Error in Hi.
      apply exec_bind_Done in Hi as (r' & Hi & Heq). injection Heq as <- <-.
      apply exec_bind_Done in Hi as (oe & Hv & Hi).
      apply Hval in Hv. destruct oe; injection Hi as <-; simpl; congruence.
    + apply exec_bind_Done in Hi as ([out [e|]] & Hi & Heq);
        injection Heq as <- <-; simpl; [|done].
      apply Marshal_error_inv in Hi. apply Hval in Hi. congruence.
Qed.
End claims_state.

(** ** The claims on resolution and binding *)

Lemma last_filter_lookup {A} (P : A → Prop) `{∀ x, Decision (P x)}
    (l : list A) i x :
  l !! i = Some x → P x →
  (∀ i' y, i < i' → l !! i' = Some y → ¬ P y) →
  last (filter P l) = Some x.
Proof.
  intros Hi Hx Hlater.
  rewrite <- (take_drop_middle l i x Hi), filter_app, filter_cons.
  rewrite decide_True by done.
  assert (filter P (drop (S i) l) = []) as ->.
  { destruct (filter P (drop (S i) l)) as [|y ys] eqn:Hfil; [done|].
    assert (y ∈ filter P (drop (S i) l)) as Hy by (rewrite Hfil; set_solver).
    apply list_elem_of_filter in Hy as [HPy [k Hk]%list_elem_of_lookup].
    rewrite lookup_drop in Hk. by destruct (Hlater (S i + k) y); [lia|..]. }
  by rewrite last_snoc.
Qed.

Section success.
Context `{UnicodeFold}.

Lemma resolve_elem_of T h name :
  resolve T h = Some name → ∃ f, f ∈ T ∧ Name f = name.
Proof.
  unfold resolve. intros Hres.
  destruct (last (filter _ T)) as [f|] eqn:Hlast; [|done].
  injection Hres as <-. exists f. split; [|done].
  apply last_Some in Hlast as [l Hl].
  assert (f ∈ filter (λ f, Is_true (EqualFold (columnTag f) h)) T) as Hf
    by (rewrite Hl; set_solver).
  by apply list_elem_of_filter in Hf as [_ ?].
Qed.

Lemma FieldByName_bindable T f :
  bindable T → f ∈ T →
  ∃ k f', FieldByName T (Name f) = Some (k, f') ∧
          Exported f' = true ∧ Type_ f' = KString.
Proof.
  intros [_ Hall] Hf. rewrite Forall_forall in Hall.
  destruct (Hall f Hf) as (Hname & _). unfold FieldByName.
  rewrite decide_False by done.
  destruct (list_find_elem_of (λ g, Name g = Name f) T f Hf eq_refl)
    as [[k f'] Hfind].
  exists k, f'. split; [done|].
  apply list_find_Some in Hfind as (Hk & _ & _).
  apply list_elem_of_lookup_2 in Hk. by destruct (Hall f' Hk) as (_ & ? & ?).
Qed.

(** Binding a record succeeds when every cell sits at a column that
    resolves to a field. *)
Lemma assignCells_succeeds T (m : gmap nat string) index record model :
  bindable T →
  (∀ k, k < length record →
        ∃ f, f ∈ T ∧ m !! (index + k) = Some (Name f)) →
  ∃ model', assignCells T m index record model = Done model'.
Proof.
  intros HT. revert index model.
  induction record as [|data rest IH]; intros index model Hm; [by eexists|].
  destruct (Hm 0) as (f & Hf & Hm0); [simpl; lia|].
  rewrite Nat.add_0_r in Hm0. simpl. rewrite Hm0. simpl.
  destruct (FieldByName_bindable T f HT Hf) as (k & f' & -> & He & Ht).
  rewrite SetString_Some by done. simpl. apply IH.
  intros k' Hk'. destruct (Hm (S k')) as (g & Hg & Hmg); [simpl; lia|].
  exists g. split; [done|]. by rewrite <- Hmg, Nat.add_succ_r.
Qed.

(** [Marshal] returns instances, without panicking, when validation
    passes, the struct type is bindable, every header cell matches a tag and
    no data row is wider than the header. *)
Lemma Marshal_succeeds T hdr rows cfg :
  validate T {| records := hdr :: rows; err := None |}
           {| SkipValidation := MarshalConfig_SkipValidation cfg |}
    = Done None →
  bindable T →
  Forall (λ h, is_Some (resolve T h)) hdr →
  Forall (λ r, length r ≤ length hdr) rows →
  ∃ out, Marshal T {| records := hdr :: rows; err := None |} cfg
         = Done (out, None).
Proof.
  intros Hv HT Hhdr Hrows.
  destruct (mapIndexToField_lookup T hdr rows) as (m & Hm & Hlook).
  assert (∃ out, Forall2 (λ r model, assignCells T m 0 r (zero T) = Done model)
                         rows out) as [out Hout].
  { clear Hv Hm. induction Hrows as [|r rows Hr Hrows IH]; [by exists []|].
    destruct IH as [out Hout].
    destruct (assignCells_succeeds T m 0 r (zero T) HT) as [model Hmodel].
    - intros k Hk. simpl. rewrite Hlook.
      destruct (lookup_lt_is_Some_2 hdr k) as [h Hh]; [lia|].
      rewrite Hh. simpl. rewrite resolveCell_resolve by apply HT.
      destruct (Forall_lookup_1 _ _ _ _ Hhdr Hh) as [name Hname].
      destruct (resolve_elem_of T h name Hname) as (f & Hf & <-). eauto.
    - exists (model :: out). by constructor. }
  exists out. unfold Marshal. rewrite Hv. cbn [mbind exec_bind records].
  rewrite Hm. cbn [mbind exec_bind fst snd]. unfold assign.
  apply (assignRecords_header T m hdr) in Hout. by rewrite Hout.
Qed.
End success.


Section claims_binding.
Context `{UnicodeFold}.

(** C1: for [person] and the rows name,lastname / Lucas,Montenegro /
    Vinicius,Vieira, [Marshal] with validation returns the two instances
    Lucas Montenegro and Vinicius Vieira, in that order, and no error. *)
Theorem C1_scenario_A :
  Marshal person {| records := personTable; err := None |}
          {| MarshalConfig_SkipValidation := false |}
  = Done ([[VString "Lucas"; VString "Montenegro"];
           [VString "Vinicius"; VString "Vieira"]], None).
Proof. vm_compute. reflexivity. Qed.

(** C2 (the code at the failing input): with [SkipValidation] set, a
    header one column wider than [person] and one data row of that width,
    [Marshal] does not ignore the cell of the unmapped column: the call
    panics in [reflect.Value.SetString]. *)
Theorem C2_unmapped_cell_panics :
  Marshal person {| records := widerTable; err := None |}
          {| MarshalConfig_SkipValidation := true |}
  = Panicked (ValueError SetString_name KInvalid).
Proof. vm_compute. reflexivity. Qed.

(** C4: when [Marshal] succeeds, its result has one instance per data
    row, that is one less than the number of stored rows, and the
    instance at each position is the binding of the data row at that
    position. *)
Theorem C4_one_instance_per_data_row T c cfg out :
  Marshal T c cfg = Done (out, None) →
  length out = length (records c) - 1 ∧
  ∃ m, mapIndexToField T (records c) = Done (m, None) ∧
       Forall2 (λ row model, assignCells T m 0 row (zero T) = Done model)
               (drop 1 (records c)) out.
Proof.
  intros HM. apply Marshal_success_inv in HM as (Hv & m & Hm & Ha).
  apply validate_None in Hv as (_ & hdr & rows & Hrs).
  rewrite Hrs in *. apply assignRecords_header in Ha.
  split.
  - apply Forall2_length in Ha. simpl. lia.
  - exists m. by split.
Qed.

End claims_binding.

(** ** Further properties of the package *)

(** *** When binding returns and when it panics *)

Lemma SetString_settable T name x model :
  settable T name = true →
  ∃ k f, FieldByName T name = Some (k, f) ∧
         SetString (FieldByName T name) x model
         = Done (<[k := VString x]> model).
Proof.
  unfold settable. destruct (FieldByName T name) as [[k f]|]; [|done].
  intros [He Ht%bool_decide_eq_true]%andb_prop. exists k, f.
  split; [done|]. by apply SetString_Some.
Qed.

Lemma SetString_not_settable T name x model :
  settable T name = false →
  ∃ p, SetString (FieldByName T name) x model = Panicked p ∧
       isSetStringPanic p = true.
Proof.
  unfold settable. destruct (FieldByName T name) as [[k f]|]; simpl.
  - destruct (Exported f); simpl; [|by eexists].
    intros Ht%bool_decide_eq_false. rewrite decide_False by done.
    by eexists.
  - by eexists.
Qed.


Lemma assignCells_panic T (m : gmap nat string) index record model p :
  assignCells T m index record model = Panicked p →
  isSetStringPanic p = true.
Proof.
  revert index model. induction record as [|data rest IH]; intros index model;
    [done|].
  simpl. destruct (settable T (default "" (m !! index))) eqn:Hs.
  - destruct (SetString_settable T _ data model Hs) as (k & f & _ & ->).
    simpl. apply IH.
  - destruct (SetString_not_settable T _ data model Hs) as (p' & -> & Hp').
    simpl. by intros [= <-].
Qed.

Lemma assignRecords_panic T (m : gmap nat string) index rs out p :
  assignRecords T m index rs out = Panicked p →
  isSetStringPanic p = true ∧ 2 ≤ index + length rs.
Proof.
  revert index out. induction rs as [|r rs IH]; intros index out; [done|].
  simpl. case_decide as Hidx.
  - intros Hp. apply IH in Hp as [? ?]. split; [done|lia].
  - destruct (assignCells T m 0 r (zero T)) as [model|p'] eqn:Hr; simpl.
    + intros Hp. apply IH in Hp as [? ?]. split; [done|lia].
    + intros [= <-]. split; [by eapply assignCells_panic|lia].
Qed.

Lemma mapIndexToField_rows `{UnicodeFold} T hdr rest rest' :
  mapIndexToField T (hdr :: rest) = mapIndexToField T (hdr :: rest').
Proof. done. Qed.

(** *** The accessors together *)

Section extra_accessors.
Context `{UnicodeFold} `{CsvReader}.

(** X1: for a struct type [T], [Validate], [Records] and [Error] never
    panic and always agree:
    they report the error of the full validation; [Validate] answers true
    exactly when that error is nil; [Records] returns the stored rows, which
    are then not empty, with a nil error, and no rows with an error. *)
Theorem X1_accessors_agree T c :
  ∃ oe, validate T c {| SkipValidation := false |} = Done oe ∧
        Validate T c = Done (bool_decide (oe = None), oe) ∧
        Error T c = Done oe ∧
        Records T c = Done (if oe is None then records c else [], oe) ∧
        (oe = None → records c ≠ [] ∧ err c = None).
Proof.
  destruct (validate_cases T c {| SkipValidation := false |})
    as (oe & Hv & _).
  exists oe. unfold Validate, Error, Records. rewrite Hv. simpl.
  destruct oe as [e|]; simpl.
  - by repeat split.
  - apply validate_None in Hv as (He & hdr & rows & Hrs).
    rewrite He, Hrs. by repeat split.
Qed.

(** X2: [Marshal] without [SkipValidation] fails with an error exactly when
    [Validate] fails with it, and it then returns no instance. *)
Theorem X2_Marshal_fails_as_Validate T c e :
  (Validate T c = Done (false, Some e) ↔
   Marshal T c {| MarshalConfig_SkipValidation := false |} = Done ([], Some e))
  ∧ ∀ out, Marshal T c {| MarshalConfig_SkipValidation := false |}
             = Done (out, Some e) → out = [].
Proof.
  assert (∀ out, Marshal T c {| MarshalConfig_SkipValidation := false |}
                   = Done (out, Some e) →
                 out = [] ∧ Validate T c = Done (false, Some e)) as Hinv.
  { intros out HM. pose proof (Marshal_error_inv _ _ _ _ _ HM) as Hv.
    split.
    - rewrite (Marshal_validation_error T c _ e Hv) in HM. congruence.
    - by apply accessors_validation_error. }
  split; [split|].
  - intros HV. apply Marshal_validation_error. simpl.
    unfold Validate in HV.
    destruct (validate_cases T c {| SkipValidation := false |})
      as (oe & Hv & _).
    rewrite Hv in HV |- *. destruct oe; simpl in HV; congruence.
  - intros HM. by apply Hinv in HM as [_ ?].
  - intros out HM. by apply Hinv in HM as [? _].
Qed.

(** X3: once [Validate] succeeds, [SkipValidation] makes no difference to
    [Marshal]: both settings return the same instances or panic alike. *)
Theorem X3_skip_is_neutral_after_Validate T c :
  Validate T c = Done (true, None) →
  Marshal T c {| MarshalConfig_SkipValidation := true |}
  = Marshal T c {| MarshalConfig_SkipValidation := false |}.
Proof.
  intros HV. unfold Validate in HV.
  destruct (validate_cases T c {| SkipValidation := false |})
    as (oe & Hv & _).
  rewrite Hv in HV. destruct oe as [e|]; simpl in HV; [congruence|].
  pose proof (validate_None _ _ _ Hv) as (He & hdr & rows & Hrs).
  unfold Marshal. simpl. rewrite Hv.
  unfold validate, validateIntegrity. rewrite He, Hrs. done.
Qed.

(** X4: with [SkipValidation] set, the only errors [Marshal] returns are
    the stored error and, without one, [ErrUninitializedRecords] for a
    helper without records; no schema error is ever returned. *)
Theorem X4_skip_leaves_integrity_errors T c out e :
  Marshal T c {| MarshalConfig_SkipValidation := true |} = Done (out, Some e) →
  out = [] ∧
  (err c = Some e ∨
   (err c = None ∧ records c = [] ∧ e = ErrUninitializedRecords)).
Proof.
  intros HM. pose proof (Marshal_error_inv _ _ _ _ _ HM) as Hv.
  split.
  - rewrite (Marshal_validation_error T c _ e Hv) in HM. congruence.
  - simpl in Hv. unfold validate, validateIntegrity in Hv.
    destruct (err c) as [e'|]; [left; congruence|]. right.
    destruct (records c); simpl in Hv; [|done].
    split; [done|]. split; [done|]. congruence.
Qed.

(** X5: a read whose returned handle is dropped has no effect.  After any
    sequence of calls on the handle made by [New], reads included, the store
    is unchanged and every accessor has answered
    [ErrUninitializedRecords]. *)
Theorem X5_dropped_reads_have_no_effect T σ ms :
  let σ' := (New σ).1 in
  let h := (New σ).2 in
  ∃ rs, invokeAll T σ' h ms = Done (σ', rs) ∧
        Forall2 (λ m r, isAccessor m = true →
                        errorOf r = Some ErrUninitializedRecords) ms rs.
Proof.
  intros σ' h. induction ms as [|m ms (rs & Hrs & Hall)].
  - exists []. by split.
  - simpl. unfold invoke, σ', h. rewrite receiver_New.
    fold σ' h. destruct m as [buffer| | | |cfg]; simpl; rewrite Hrs; simpl;
      eexists; (split; [done|]); by constructor.
Qed.

(** X6: for a struct type [T], what [Records] answers on the helper
    returned by a read: the
    reader's error if there is one; otherwise [ErrUninitializedRecords] when
    the reader produced no row; otherwise the schema error the header row
    gives, if any; otherwise the rows as read. *)
Theorem X6_Records_after_ReadAll T c buffer :
  Records T (ReadAll c buffer) =
  Done match (csvReadAll buffer).2 with
       | Some e => ([], Some (ReaderError e))
       | None =>
           match (csvReadAll buffer).1 with
           | [] => ([], Some ErrUninitializedRecords)
           | hdr :: rows =>
               match schemaVerdict T hdr with
               | Some e => ([], Some e)
               | None => (hdr :: rows, None)
               end
           end
       end.
Proof.
  unfold ReadAll. destruct (csvReadAll buffer) as [rs [e|]]; simpl; [done|].
  destruct rs as [|hdr rows]; [done|].
  unfold Records. rewrite validate_spec. simpl.
  by destruct (schemaVerdict T hdr).
Qed.

(** X7: validation reads nothing of the records but the number of cells of
    the header row: two helpers without stored error whose header rows have
    the same length get the same answer from [Validate], whatever their
    header cells and data rows are. *)
Theorem X7_Validate_reads_header_length_only T hdr rows hdr' rows' :
  length hdr = length hdr' →
  Validate T {| records := hdr :: rows; err := None |}
  = Validate T {| records := hdr' :: rows'; err := None |}.
Proof.
  intros Hlen. unfold Validate.
  by rewrite (validate_header_length T hdr rows hdr' rows').
Qed.
End extra_accessors.

(** *** Resolution and binding *)

Lemma assignCells_inv_length T (m : gmap nat string) index record model inst :
  assignCells T m index record model = Done inst →
  length inst = length model.
Proof.
  revert index model. induction record as [|data rest IH]; intros index model.
  - by intros [= <-].
  - simpl. intros (model1 & Hset & Hrest)%exec_bind_Done.
    apply SetString_Done in Hset as (k & f & _ & _ & _ & ->).
    apply IH in Hrest. by rewrite length_insert in Hrest.
Qed.

(** A slot no cell of the record is written to keeps its content. *)
Lemma assignCells_untouched T (m : gmap nat string) index record model inst k :
  assignCells T m index record model = Done inst →
  (∀ j f, j < length record →
          FieldByName T (default "" (m !! (index + j))) ≠ Some (k, f)) →
  inst !! k = model !! k.
Proof.
  revert index model. induction record as [|data rest IH]; intros index model.
  - by intros [= <-].
  - simpl. intros (model1 & Hset & Hrest)%exec_bind_Done Hk.
    apply SetString_Done in Hset as (k1 & f1 & Hf1 & _ & _ & ->).
    rewrite (IH _ _ Hrest).
    + apply list_lookup_insert_ne. intros ->.
      apply (Hk 0 f1); [lia|]. by rewrite Nat.add_0_r.
    + intros j f Hj. replace (S index + j) with (index + S j) by lia.
      apply Hk. lia.
Qed.

(** The last cell written to a slot is what the slot holds. *)
Lemma assignCells_last_write T (m : gmap nat string) index record model inst
    j d name k f :
  assignCells T m index record model = Done inst →
  record !! j = Some d →
  m !! (index + j) = Some name →
  FieldByName T name = Some (k, f) →
  k < length model →
  (∀ j', j < j' → j' < length record → m !! (index + j') ≠ Some name) →
  inst !! k = Some (VString d).
Proof.
  revert index model j.
  induction record as [|data rest IH]; intros index model j; [done|].
  simpl. intros (model1 & Hset & Hrest)%exec_bind_Done Hj Hm Hf Hk Hlater.
  destruct j as [|j].
  - injection Hj as ->. rewrite Nat.add_0_r in Hm. rewrite Hm in Hset.
    simpl in Hset. rewrite Hf in Hset.
    apply SetString_Done in Hset as (k1 & f1 & [= <- <-] & _ & _ & ->).
    rewrite (assignCells_untouched _ _ _ _ _ _ k Hrest).
    + by apply list_lookup_insert_eq.
    + intros j' f' Hj' Hf'.
      apply FieldByName_Some in Hf as (_ & Hkf & Hname).
      apply FieldByName_Some in Hf' as (Hne & Hkf' & Hname').
      assert (m !! (S index + j') = Some name) as Hm'.
      { destruct (m !! (S index + j')) as [name'|]; simpl in *; [|done].
        congruence. }
      apply (Hlater (S j')); [lia|simpl; lia|].
      by replace (index + S j') with (S index + j') by lia.
  - apply SetString_Done in Hset as (k1 & f1 & _ & _ & _ & ->).
    apply (IH (S index) _ j Hrest); try done.
    + by replace (S index + j) with (index + S j) by lia.
    + by rewrite length_insert.
    + intros j' Hlt Hlen.
      replace (S index + j') with (index + S j') by lia.
      apply Hlater; simpl; lia.
Qed.


Section extra_binding.
Context `{UnicodeFold}.

Lemma resolveCell_elem_of T h name :
  resolveCell T h = Some name → name ∈ Name <$> T.
Proof.
  unfold resolveCell. intros [l Hl]%last_Some.
  rewrite <- collectFields_names.
  assert (name ∈ filter
            (λ name, Is_true (EqualFold
               (default "" ((collectFields T).2 !! name)) h))
            (take (size (collectFields T).2) (collectFields T).1)) as Hin
    by (rewrite Hl; set_solver).
  apply list_elem_of_filter in Hin as [_ [i Hi]%list_elem_of_lookup].
  apply lookup_take_Some in Hi as [Hi _]. by eapply list_elem_of_lookup_2.
Qed.

(** X8: on a table that has a header row, [mapIndexToField] never panics
    and never fails, whatever the struct type; its map depends on the header
    row only, has no key beyond the header's cells and no value that is not
    the name of a declared field. *)
Theorem X8_mapIndexToField_bounds T hdr rest :
  ∃ m, mapIndexToField T (hdr :: rest) = Done (m, None) ∧
       (∀ rest', mapIndexToField T (hdr :: rest') = Done (m, None)) ∧
       (∀ j name, m !! j = Some name →
                  j < length hdr ∧ name ∈ Name <$> T).
Proof.
  destruct (mapIndexToField_lookup T hdr rest) as (m & Hm & Hlook).
  exists m. split; [done|]. split.
  - intros rest'. by rewrite (mapIndexToField_rows T hdr rest' rest).
  - intros j name Hj. rewrite Hlook in Hj.
    destruct (hdr !! j) as [h|] eqn:Hh; simpl in Hj; [|done].
    split; [by eapply lookup_lt_Some|by eapply resolveCell_elem_of].
Qed.


(** X10: for a struct type [T], [Marshal] panics nowhere but in
    [reflect.Value.SetString]: a
    panic is never an index out of range, and it needs a helper without
    stored error that holds at least one data row. *)
Theorem X10_Marshal_panics_in_SetString_only T c cfg p :
  Marshal T c cfg = Panicked p →
  isSetStringPanic p = true ∧ err c = None ∧ 2 ≤ length (records c).
Proof.
  unfold Marshal. intros HM.
  destruct (validate_cases T c
              {| SkipValidation := MarshalConfig_SkipValidation cfg |})
    as (oe & Hv & _).
  rewrite Hv in HM. destruct oe as [e|]; simpl in HM; [done|].
  apply validate_None in Hv as (He & hdr & rows & Hrs). rewrite Hrs in *.
  destruct (mapIndexToField_lookup T hdr rows) as (m & Hm & _).
  rewrite Hm in HM. simpl in HM. unfold assign in HM.
  destruct (assignRecords T m 0 (hdr :: rows) []) as [out|p'] eqn:Ha;
    simpl in HM; [done|].
  injection HM as <-. apply assignRecords_panic in Ha as [? ?].
  repeat split; [done..|simpl in *; lia].
Qed.

(** X11: in every instance [Marshal] returns there is one slot per declared
    field, and a field whose name is the map entry of no column holds the
    zero value of its kind. *)
Theorem X11_unfed_fields_keep_zero T c cfg out m :
  Marshal T c cfg = Done (out, None) →
  mapIndexToField T (records c) = Done (m, None) →
  Forall (λ inst,
            length inst = length T ∧
            ∀ k f, T !! k = Some f →
                   (∀ j, m !! j ≠ Some (Name f)) →
                   inst !! k = Some (zeroValue (Type_ f))) out.
Proof.
  intros HM Hm.
  apply Marshal_success_inv in HM as (Hv & m0 & Hm0 & Ha).
  rewrite Hm in Hm0. injection Hm0 as <-.
  apply validate_None in Hv as (_ & hdr & rows & Hrs). rewrite Hrs in Ha.
  apply assignRecords_header in Ha.
  clear Hrs Hm.
  induction Ha as [|r inst rows out Hr _ IH]; [constructor|].
  constructor; [|done]. split.
  - apply assignCells_inv_length in Hr. unfold zero in Hr.
    by rewrite length_fmap in Hr.
  - intros k f Hk Hunfed.
    rewrite (assignCells_untouched _ _ _ _ _ _ k Hr).
    + unfold zero. by rewrite list_lookup_fmap, Hk.
    + intros j f' _ Hf'. simpl in Hf'.
      apply FieldByName_Some in Hf' as (Hne & Hkf' & Hname').
      apply (Hunfed j).
      destruct (m !! j) as [name'|]; simpl in *; congruence.
Qed.

(** X12: in the instance bound from a data row, the field found under the
    map entry of a column holds the cell of that column, provided no later
    cell of the row sits at a column with the same entry: when several
    columns feed one field, the last one wins. *)
Theorem X12_last_column_wins T c cfg out m i r inst j d name k f :
  Marshal T c cfg = Done (out, None) →
  mapIndexToField T (records c) = Done (m, None) →
  records c !! S i = Some r →
  out !! i = Some inst →
  r !! j = Some d →
  m !! j = Some name →
  FieldByName T name = Some (k, f) →
  (∀ j', j < j' → j' < length r → m !! j' ≠ Some name) →
  inst !! k = Some (VString d).
Proof.
  intros HM Hm Hr Hinst Hj Hmj Hf Hlater.
  apply Marshal_success_inv in HM as (Hv & m0 & Hm0 & Ha).
  rewrite Hm in Hm0. injection Hm0 as <-.
  apply validate_None in Hv as (_ & hdr & rows & Hrs).
  rewrite Hrs in Ha, Hr. simpl in Hr.
  apply assignRecords_header in Ha.
  pose proof (Forall2_lookup_lr _ _ _ _ _ _ Ha Hr Hinst) as Hbind.
  apply (assignCells_last_write T m 0 r (zero T) inst j d name k f);
    try done.
  apply FieldByName_Some in Hf as (_ & Hk & _).
  apply lookup_lt_Some in Hk. unfold zero. by rewrite length_fmap.
Qed.

(** X13: an instance depends on the header row and on its own data row
    only: the instance [Marshal] returns for a data row is the one it
    returns for the table made of the header row and that row alone. *)
Theorem X13_instance_depends_on_its_row T hdr rows cfg out i r :
  Marshal T {| records := hdr :: rows; err := None |} cfg = Done (out, None) →
  rows !! i = Some r →
  ∃ inst, out !! i = Some inst ∧
          Marshal T {| records := [hdr; r]; err := None |} cfg
          = Done ([inst], None).
Proof.
  intros HM Hr.
  apply Marshal_success_inv in HM as (Hv & m & Hm & Ha).
  cbn [records] in Hm, Ha. apply assignRecords_header in Ha.
  destruct (Forall2_lookup_l _ _ _ _ _ Ha Hr) as (inst & Hinst & Hbind).
  exists inst. split; [done|]. unfold Marshal. cbn [records].
  rewrite (validate_header_length T hdr [r] hdr rows), Hv by done.
  cbn [mbind exec_bind].
  rewrite (mapIndexToField_rows T hdr [r] rows), Hm.
  cbn [mbind exec_bind fst snd]. unfold assign. simpl. by rewrite Hbind.
Qed.

(** X14: [Marshal] distributes over the concatenation of data rows under
    one header row. *)
Theorem X14_Marshal_of_appended_rows T hdr rows1 rows2 cfg out1 out2 :
  Marshal T {| records := hdr :: rows1; err := None |} cfg
    = Done (out1, None) →
  Marshal T {| records := hdr :: rows2; err := None |} cfg
    = Done (out2, None) →
  Marshal T {| records := hdr :: rows1 ++ rows2; err := None |} cfg
    = Done (out1 ++ out2, None).
Proof.
  intros HM1 HM2.
  apply Marshal_success_inv in HM1 as (Hv & m & Hm & Ha1).
  apply Marshal_success_inv in HM2 as (_ & m2 & Hm2 & Ha2).
  cbn [records] in Hm, Hm2, Ha1, Ha2.
  rewrite (mapIndexToField_rows T hdr rows2 rows1), Hm in Hm2.
  injection Hm2 as <-.
  apply assignRecords_header in Ha1. apply assignRecords_header in Ha2.
  unfold Marshal. cbn [records].
  rewrite (validate_header_length T hdr (rows1 ++ rows2) hdr rows1), Hv
    by done.
  cbn [mbind exec_bind].
  rewrite (mapIndexToField_rows T hdr (rows1 ++ rows2) rows1), Hm.
  cbn [mbind exec_bind fst snd]. unfold assign.
  assert (assignRecords T m 0 (hdr :: rows1 ++ rows2) []
          = Done (out1 ++ out2)) as ->; [|done].
  apply assignRecords_header. by apply Forall2_app.
Qed.

(** X15: on a table made of a header row alone [Marshal] never panics: it
    returns no instance, together with the outcome of the validation. *)
Theorem X15_header_only_table T hdr cfg :
  ∃ oe, validate T {| records := [hdr]; err := None |}
                 {| SkipValidation := MarshalConfig_SkipValidation cfg |}
        = Done oe ∧
        Marshal T {| records := [hdr]; err := None |} cfg = Done ([], oe).
Proof.
  destruct (validate_cases T {| records := [hdr]; err := None |}
              {| SkipValidation := MarshalConfig_SkipValidation cfg |})
    as (oe & Hv & _).
  exists oe. split; [done|]. unfold Marshal. rewrite Hv.
  destruct oe as [e|]; [done|]. cbn [mbind exec_bind records].
  destruct (mapIndexToField_lookup T hdr []) as (m & -> & _). done.
Qed.

(** X16: for a struct type with pairwise distinct field names and ASCII
    tags that stay pairwise distinct in lower case, and an ASCII header, a
    column is mapped to a field name exactly when the header cell of the
    column and the tag of that field are equal in lower case. *)
Theorem X16_resolution_on_ASCII T hdr rest :
  NoDup (Name <$> T) →
  NoDup ((λ f, lower (columnTag f)) <$> T) →
  Forall (λ f, isASCII (columnTag f) = true) T →
  Forall (λ h, isASCII h = true) hdr →
  ∃ m, mapIndexToField T (hdr :: rest) = Done (m, None) ∧
       ∀ j name,
         m !! j = Some name ↔
         ∃ h f, hdr !! j = Some h ∧ f ∈ T ∧ Name f = name ∧
                lower (columnTag f) = lower h.
Proof.
  intros Hnames Htags HT Hhdr.
  destruct (mapIndexToField_lookup T hdr rest) as (m & Hm & Hlook).
  exists m. split; [done|]. intros j name. rewrite Hlook.
  destruct (hdr !! j) as [h|] eqn:Hh; simpl;
    [|split; [done|by intros (? & ? & ? & _)]].
  pose proof (Forall_lookup_1 _ _ _ _ Hhdr Hh) as Hascii.
  rewrite resolveCell_resolve by done. unfold resolve.
  assert (∀ f, f ∈ T →
            (Is_true (EqualFold (columnTag f) h) ↔
             lower (columnTag f) = lower h)) as Hfold.
  { intros f Hf. rewrite Forall_forall in HT.
    rewrite EqualFold_ASCII by auto.
    split; [apply bool_decide_unpack|apply bool_decide_pack]. }
  split.
  - intros Hres.
    destruct (last (filter _ T)) as [f|] eqn:Hlast; [|done].
    injection Hres as <-. apply last_Some in Hlast as [l Hl].
    assert (f ∈ filter (λ f, Is_true (EqualFold (columnTag f) h)) T) as Hf
      by (rewrite Hl; set_solver).
    apply list_elem_of_filter in Hf as [HP Hf].
    exists h, f. repeat split; [done|]. by apply Hfold.
  - intros (h' & f & [= <-] & Hf & <- & Heq).
    apply list_elem_of_lookup in Hf as [i Hi].
    rewrite (last_filter_lookup _ T i f Hi); [done| |].
    + apply Hfold; [by eapply list_elem_of_lookup_2|done].
    + intros i' g Hlt Hg HP.
      apply Hfold in HP; [|by eapply list_elem_of_lookup_2].
      assert (i = i'); [|lia].
      eapply (NoDup_lookup _ i i' (lower h) Htags);
        rewrite list_lookup_fmap.
      * by rewrite Hi; simpl; rewrite Heq.
      * by rewrite Hg; simpl; rewrite HP.
Qed.

(** X17: [Marshal] returns one instance per data row, without panicking,
    when [Validate] succeeds, every field is an exported string with a
    name of its own, every header cell equals some tag under [EqualFold] and
    no data row is wider than the header row. *)
Theorem X17_Marshal_returns T hdr rows cfg :
  Validate T {| records := hdr :: rows; err := None |} = Done (true, None) →
  bindable T →
  Forall (λ h, is_Some (resolve T h)) hdr →
  Forall (λ r, length r ≤ length hdr) rows →
  ∃ out, Marshal T {| records := hdr :: rows; err := None |} cfg
         = Done (out, None) ∧
         length out = length rows.
Proof.
  intros HV HT Hhdr Hrows.
  assert (validate T {| records := hdr :: rows; err := None |}
            {| SkipValidation := MarshalConfig_SkipValidation cfg |}
          = Done None) as Hv.
  { destruct (MarshalConfig_SkipValidation cfg); [done|].
    unfold Validate in HV. rewrite validate_spec in HV |- *.
    destruct (schemaVerdict T hdr); simpl in HV; congruence. }
  destruct (Marshal_succeeds T hdr rows cfg Hv HT Hhdr Hrows) as [out HM].
  exists out. split; [done|].
  apply Marshal_success_inv in HM as (_ & m & _ & Ha).
  apply assignRecords_header in Ha. by apply Forall2_length in Ha.
Qed.
End extra_binding.

(** ** The claims at concrete tables *)

#[local] Existing Instance noUnicode.
#[local] Existing Instance plainReader.

(** C3 as stated fails: [pair] is a valid schema, [Marshal] succeeds on the
    table with the repeated header cell and on the table with its two
    columns swapped, and the instances differ in field [A]. *)
Lemma C3_counterexample :
  validSchema pair ∧
  [1; 0] ≡ₚ seq 0 2 ∧
  Marshal pair {| records := repeatedHeaderTable; err := None |}
          {| MarshalConfig_SkipValidation := false |}
    = Done ([[VString "2"; VString ""]], None) ∧
  Marshal pair
          {| records := permuteTable [1; 0] repeatedHeaderTable; err := None |}
          {| MarshalConfig_SkipValidation := false |}
    = Done ([[VString "1"; VString ""]], None) ∧
  [[VString "2"; VString ""]] ≠ [[VString "1"; VString ""]].
Proof.
  split; [|split; [|split; [|split]]].
  - split; [by repeat constructor|]. decide_by_compute.
  - apply perm_swap.
  - vm_compute. reflexivity.
  - vm_compute. reflexivity.
  - discriminate.
Qed.

(** C3 at [person] and its table with the two columns swapped. *)
Lemma C3_witness :
  Marshal person
          {| records := permuteTable [1; 0] personTable; err := None |}
          {| MarshalConfig_SkipValidation := false |}
  = Done ([[VString "Lucas"; VString "Montenegro"];
           [VString "Vinicius"; VString "Vieira"]], None).
Proof.
  apply (C3_column_order_independence person ["name"; "lastname"]
           [["Lucas"; "Montenegro"]; ["Vinicius"; "Vieira"]]
           {| MarshalConfig_SkipValidation := false |}
           {[ 0 := "Name"; 1 := "LastName" ]} _ [1; 0]).
  - vm_compute. reflexivity.
  - vm_compute. reflexivity.
  - decide_by_compute.
  - repeat constructor.
  - apply perm_swap.
Defined.

(** C4 at [person] and its table of three rows. *)
Lemma C4_witness :
  length [[VString "Lucas"; VString "Montenegro"];
          [VString "Vinicius"; VString "Vieira"]]
  = length personTable - 1 ∧
  ∃ m, mapIndexToField person personTable = Done (m, None) ∧
       Forall2 (λ row model, assignCells person m 0 row (zero person) = Done model)
               (drop 1 personTable)
               [[VString "Lucas"; VString "Montenegro"];
                [VString "Vinicius"; VString "Vieira"]].
Proof.
  apply (C4_one_instance_per_data_row person
           {| records := personTable; err := None |}
           {| MarshalConfig_SkipValidation := false |}).
  vm_compute. reflexivity.
Defined.

(** C6 at a helper that stores a field-count error next to records. *)
Lemma C6_witness :
  ∃ rs,
    invokeAll person ∅
      (Boxed {| records := personTable; err := Some fieldCountError |})
      [CallValidate; CallRecords; CallError;
       CallMarshal {| MarshalConfig_SkipValidation := true |}]
    = Done (∅, rs) ∧
    length rs = 4 ∧
    Forall (λ r, errorOf r = Some fieldCountError) rs.
Proof.
  apply (C6_stored_error_is_sticky person ∅
           (Boxed {| records := personTable; err := Some fieldCountError |})
           {| records := personTable; err := Some fieldCountError |}
           fieldCountError
           [CallValidate; CallRecords; CallError;
            CallMarshal {| MarshalConfig_SkipValidation := true |}]);
    reflexivity.
Defined.

(** C8 at the handle made by [New] on the empty store. *)
Lemma C8_witness :
  ∃ σ' h',
    invoke person (New ∅).1 (New ∅).2 (CallReadAll "name,lastname")
      = Done (σ', RetReadAll h') ∧
    receiver σ' h' = Done {| records := [["name"; "lastname"]]; err := None |} ∧
    σ' = (New ∅).1 ∧
    receiver σ' (New ∅).2 = Done csvHelperImpl_zero ∧
    ∀ m, invoke person σ' (New ∅).2 m = invoke person (New ∅).1 (New ∅).2 m.
Proof.
  assert (receiver (New ∅).1 (New ∅).2 = Done csvHelperImpl_zero) as Hr
    by (vm_compute; reflexivity).
  exact (C8_ReadAll_is_copy_on_write person (New ∅).1 (New ∅).2
           csvHelperImpl_zero "name,lastname" Hr).
Defined.



(** C10 at [person] and a header none of whose cells is a declared tag. *)
Lemma C10_witness :
  Validate person {| records := foreignTable; err := None |}
    = Done (true, None).
Proof.
  apply (C10_header_contents_not_validated person ["first"; "second"]
           [["Lucas"; "Montenegro"]]).
  - split; [by repeat constructor|]. decide_by_compute.
  - reflexivity.
Defined.

(** ** The further properties at concrete tables *)

(** X3 at [person] and its table. *)
Lemma X3_witness :
  Marshal person {| records := personTable; err := None |}
          {| MarshalConfig_SkipValidation := true |}
  = Marshal person {| records := personTable; err := None |}
            {| MarshalConfig_SkipValidation := false |}.
Proof.
  apply (X3_skip_is_neutral_after_Validate person
           {| records := personTable; err := None |}).
  vm_compute. reflexivity.
Defined.

(** X4 at the zero helper. *)
Lemma X4_witness :
  ([] : list (list Value)) = [] ∧
  (err csvHelperImpl_zero = Some ErrUninitializedRecords ∨
   (err csvHelperImpl_zero = None ∧ records csvHelperImpl_zero = [] ∧
    ErrUninitializedRecords = ErrUninitializedRecords)).
Proof.
  apply (X4_skip_leaves_integrity_errors person csvHelperImpl_zero []
           ErrUninitializedRecords).
  vm_compute. reflexivity.
Defined.

(** X7 at [person], its table, and a table with a foreign header. *)
Lemma X7_witness :
  Validate person {| records := personTable; err := None |}
  = Validate person {| records := foreignTable; err := None |}.
Proof.
  apply (X7_Validate_reads_header_length_only person
           ["name"; "lastname"]
           [["Lucas"; "Montenegro"]; ["Vinicius"; "Vieira"]]
           ["first"; "second"] [["Lucas"; "Montenegro"]]).
  reflexivity.
Defined.


(** X10 at the panic of [person] on the table with one column too many. *)
Lemma X10_witness :
  isSetStringPanic (ValueError SetString_name KInvalid) = true ∧
  err {| records := widerTable; err := None |} = None ∧
  2 ≤ length (records {| records := widerTable; err := None |}).
Proof.
  apply (X10_Marshal_panics_in_SetString_only person
           {| records := widerTable; err := None |}
           {| MarshalConfig_SkipValidation := true |}).
  vm_compute. reflexivity.
Defined.

(** X11 at [person] and a table that has the name column only, validation
    skipped: the last name stays empty. *)
Lemma X11_witness :
  Forall (λ inst,
            length inst = length person ∧
            ∀ k f, person !! k = Some f →
                   (∀ j, ({[ 0 := "Name" ]} : gmap nat string) !! j
                         ≠ Some (Name f)) →
                   inst !! k = Some (zeroValue (Type_ f)))
         [[VString "Lucas"; VString ""]].
Proof.
  apply (X11_unfed_fields_keep_zero person
           {| records := [["name"]; ["Lucas"]]; err := None |}
           {| MarshalConfig_SkipValidation := true |}).
  - vm_compute. reflexivity.
  - vm_compute. reflexivity.
Defined.

(** X12 at [pair] and the table whose two columns both feed field [A]. *)
Lemma X12_witness :
  [VString "2"; VString ""] !! 0 = Some (VString "2").
Proof.
  apply (X12_last_column_wins pair
           {| records := repeatedHeaderTable; err := None |}
           {| MarshalConfig_SkipValidation := false |}
           [[VString "2"; VString ""]]
           {[ 0 := "A"; 1 := "A" ]} 0 ["1"; "2"] [VString "2"; VString ""]
           1 "2" "A" 0 (stringField "A" "a")).
  - vm_compute. reflexivity.
  - vm_compute. reflexivity.
  - reflexivity.
  - reflexivity.
  - reflexivity.
  - reflexivity.
  - vm_compute. reflexivity.
  - intros j' Hlt Hlen. simpl in Hlen. lia.
Defined.

(** X13 at the second data row of the table of [person]. *)
Lemma X13_witness :
  ∃ inst,
    [[VString "Lucas"; VString "Montenegro"];
     [VString "Vinicius"; VString "Vieira"]] !! 1 = Some inst ∧
    Marshal person
            {| records := [["name"; "lastname"]; ["Vinicius"; "Vieira"]];
               err := None |}
            {| MarshalConfig_SkipValidation := false |}
    = Done ([inst], None).
Proof.
  apply (X13_instance_depends_on_its_row person ["name"; "lastname"]
           [["Lucas"; "Montenegro"]; ["Vinicius"; "Vieira"]]
           {| MarshalConfig_SkipValidation := false |}).
  - vm_compute. reflexivity.
  - reflexivity.
Defined.

(** X14 at the two data rows of the table of [person]. *)
Lemma X14_witness :
  Marshal person
          {| records := ["name"; "lastname"]
                        :: [["Lucas"; "Montenegro"]] ++ [["Vinicius"; "Vieira"]];
             err := None |}
          {| MarshalConfig_SkipValidation := false |}
  = Done ([[VString "Lucas"; VString "Montenegro"]]
          ++ [[VString "Vinicius"; VString "Vieira"]], None).
Proof.
  apply (X14_Marshal_of_appended_rows person ["name"; "lastname"]
           [["Lucas"; "Montenegro"]] [["Vinicius"; "Vieira"]]).
  - vm_compute. reflexivity.
  - vm_compute. reflexivity.
Defined.

(** X16 at [person] and a header written in other letter case. *)
Lemma X16_witness :
  ∃ m, mapIndexToField person [["NAME"; "LastName"]] = Done (m, None) ∧
       ∀ j name,
         m !! j = Some name ↔
         ∃ h f, ["NAME"; "LastName"] !! j = Some h ∧ f ∈ person ∧
                Name f = name ∧ lower (columnTag f) = lower h.
Proof.
  apply (X16_resolution_on_ASCII person ["NAME"; "LastName"] []).
  - decide_by_compute.
  - decide_by_compute.
  - repeat constructor.
  - repeat constructor.
Defined.

(** X17 at [person] and its table. *)
Lemma X17_witness :
  ∃ out, Marshal person {| records := personTable; err := None |}
                 {| MarshalConfig_SkipValidation := false |}
         = Done (out, None) ∧
         length out = 2.
Proof.
  apply (X17_Marshal_returns person ["name"; "lastname"]
           [["Lucas"; "Montenegro"]; ["Vinicius"; "Vieira"]]
           {| MarshalConfig_SkipValidation := false |}).
  - vm_compute. reflexivity.
  - split; [decide_by_compute|]. repeat constructor; discriminate.
  - repeat constructor; eexists; vm_compute; reflexivity.
  - repeat constructor.
Defined.
